(** * Level-scoped storage of forward-mode AD gradients

    A shallow embedding of [torch/csrc/autograd/forward_grad.h]: the two
    classes [ForwardADLevel] (a level, with the set of gradient holders
    registered with it) and [ForwardGrad] (a gradient holder, mapping a
    level index to a tensor), and the process-wide table of live levels.

    A method is a computation over the [World] that either returns or
    throws, and the world reached at a throw is kept. Calls are taken one
    at a time: two calls running inside each other on different threads are
    outside this development, and the mutexes have no counterpart here.

    Level indices and holder identities are [N]; the header has
    [uint64_t] indices and does no arithmetic on them. *)

From stdpp Require Import gmap list fin_maps fin_sets.

#[local] Open Scope N_scope.

(** ** Data *)

(** [at::Tensor] is a handle: either undefined or pointing at an
    implementation object, of which only the identity matters here. *)
Inductive Tensor : Type :=
  | UndefinedTensor
  | TensorImpl (id : N).

#[global] Instance Tensor_eq_dec : EqDecision Tensor.
Proof. solve_decision. Defined.

(** A [std::shared_ptr<ForwardGrad>]: the identity of a holder object. *)
Definition GradPtr := N.

(** [struct ForwardADLevel]: [grads_] and [idx_] (the mutex has no
    sequential content). *)
Record ForwardADLevel : Type := mkLevel {
  grads_ : gset N;
  idx_ : N
}.

(** [struct ForwardGrad]: [content_]. *)
Record ForwardGrad : Type := mkGrad {
  content_ : gmap N Tensor
}.

(** The process: the table of live levels, keyed by level index, and the
    holder objects, keyed by their identity. *)
Record World : Type := mkWorld {
  all_forward_levels_ : gmap N ForwardADLevel;
  grad_heap : gmap N ForwardGrad
}.

(** [ForwardGrad() {}] builds a holder with no content: an identity that was
    never written reads as that object. *)
Definition new_ForwardGrad : ForwardGrad := mkGrad ∅.

Definition grad_at (w : World) (this : GradPtr) : ForwardGrad :=
  default new_ForwardGrad (grad_heap w !! this).

Definition initial_world : World := mkWorld ∅ ∅.

(** ** Computations that may throw *)

Inductive Error : Type :=
  | UnknownScope.

(** The world after the computation, and its result or the error thrown. *)
Definition M (A : Type) : Type := World → World * (Error + A).

Definition ret {A} (a : A) : M A := λ w, (w, inr a).

Definition throw {A} (e : Error) : M A := λ w, (w, inl e).

Definition bind {A B} (m : M A) (k : A → M B) : M B :=
  λ w, match m w with
       | (w', inl e) => (w', inl e)
       | (w', inr a) => k a w'
       end.

Definition gets {A} (f : World → A) : M A := λ w, (w, inr (f w)).

Definition modify (f : World → World) : M unit := λ w, (f w, inr tt).

Notation "'let*' x ':=' m 'in' k" := (bind m (λ x, k))
  (at level 10, x name, m at level 100, k at level 200).
Notation "m ;> k" := (bind m (λ _, k))
  (at level 100, k at level 200, right associativity).

Fixpoint for_each {A} (l : list A) (body : A → M unit) : M unit :=
  match l with
  | [] => ret tt
  | a :: l' => body a ;> for_each l' body
  end.

Definition world_of {A} (r : World * (Error + A)) : World := r.1.

Definition returns {A} (r : World * (Error + A)) : option A :=
  match r.2 with inr a => Some a | inl _ => None end.

Definition throws {A} (r : World * (Error + A)) : option Error :=
  match r.2 with inl e => Some e | inr _ => None end.

(** ** The level table

    The bodies of [get_next_idx], [release_idx], [get_by_idx],
    [try_get_by_idx] and of the destructor are in [forward_grad.cpp]; the
    header declares them. *)

(** [ForwardADLevel(uint64_t idx): idx_(idx) {}] *)
Definition new_ForwardADLevel (idx : N) : ForwardADLevel := mkLevel ∅ idx.

(** Modelled from the spec: the body of [ForwardADLevel::get_by_idx] is
    missing. "look up an active scope; fails (kind: UnknownScope) if not
    found". The shared pointer it returns is modelled by the index under
    which the one level object of that index is stored. *)
Definition get_by_idx (idx : N) : M N :=
  λ w, match all_forward_levels_ w !! idx with
       | Some _ => (w, inr idx)
       | None => (w, inl UnknownScope)
       end.

(** Modelled from the spec: the body of [ForwardADLevel::try_get_by_idx] is
    missing. "same lookup, but returns absent instead of failing". *)
Definition try_get_by_idx (idx : N) : M (option N) :=
  λ w, match all_forward_levels_ w !! idx with
       | Some _ => (w, inr (Some idx))
       | None => (w, inr None)
       end.

Definition with_grads (lvl : N) (f : gset N → gset N) (w : World) : World :=
  mkWorld
    (alter (λ l, mkLevel (f (grads_ l)) (idx_ l)) lvl (all_forward_levels_ w))
    (grad_heap w).

(** [void erase(const std::shared_ptr<ForwardGrad>& grad)] *)
Definition ForwardADLevel_erase (lvl : N) (grad : GradPtr) : M unit :=
  modify (with_grads lvl (λ g, g ∖ {[grad]})).

(** [void insert(const std::shared_ptr<ForwardGrad>& grad)] *)
Definition ForwardADLevel_insert (lvl : N) (grad : GradPtr) : M unit :=
  modify (with_grads lvl (λ g, {[grad]} ∪ g)).

(** ** The gradient holder *)

Definition with_content (this : GradPtr)
    (f : gmap N Tensor → gmap N Tensor) (w : World) : World :=
  mkWorld
    (all_forward_levels_ w)
    (<[this := mkGrad (f (content_ (grad_at w this)))]> (grad_heap w)).

(** [std::unordered_map::insert]: the pair is added only when the key has no
    element yet; an element already stored under the key is kept. *)
Definition unordered_map_insert (k : N) (v : Tensor) (m : gmap N Tensor)
    : gmap N Tensor :=
  match m !! k with
  | Some _ => m
  | None => <[k := v]> m
  end.

(** [std::unordered_map::erase(key)] *)
Definition unordered_map_erase (k : N) (m : gmap N Tensor) : gmap N Tensor :=
  delete k m.

(** [void set_value(const at::Tensor& value, uint64_t level)] *)
Definition set_value (this : GradPtr) (value : Tensor) (level : N) : M unit :=
  let* lvl := get_by_idx level in
  ForwardADLevel_insert lvl this ;>
  modify (with_content this (unordered_map_insert level value)).

(** [void reset(uint64_t level, bool update_level=true)] *)
Definition reset (this : GradPtr) (level : N) (update_level : bool) : M unit :=
  (if update_level
   then let* lvl := get_by_idx level in ForwardADLevel_erase lvl this
   else ret tt) ;>
  modify (with_content this (unordered_map_erase level)).

(** [void clear()]: the indices of [content_] are copied first, then each
    level still in the table drops this holder. [content_] is not written. *)
Definition clear (this : GradPtr) : M unit :=
  let* levels_idx := gets (λ w, (map_to_list (content_ (grad_at w this))).*1) in
  for_each levels_idx (λ l_idx,
    let* level := try_get_by_idx l_idx in
    match level with
    | Some lvl => ForwardADLevel_erase lvl this
    | None => ret tt
    end).

(** [bool contains(uint64_t level)]: [content_.count(level) > 0] *)
Definition contains (this : GradPtr) (level : N) : M bool :=
  gets (λ w, bool_decide (is_Some (content_ (grad_at w this) !! level))).

(** [bool empty() const] *)
Definition ForwardGrad_empty (this : GradPtr) : M bool :=
  gets (λ w, bool_decide (content_ (grad_at w this) = ∅)).

(** A [const at::Tensor&]: which object the reference designates. *)
Inductive TensorRef : Type :=
  | ContentRef (this : GradPtr) (level : N)
  | SingletonUndefinedRef.

#[global] Instance TensorRef_eq_dec : EqDecision TensorRef.
Proof. solve_decision. Defined.

(** Modelled from the spec: the sentinel object is defined in
    [forward_grad.cpp]. "a distinguished undefined gradient value ...
    process-wide, immutable, and shared by reference". It is no part of the
    [World]: no method has write access to it. *)
Definition singleton_undefined_tensor : Tensor := UndefinedTensor.

(** Modelled from the spec: the body of [ForwardGrad::undef_grad] is
    missing; it hands out the sentinel by reference. *)
Definition undef_grad : TensorRef := SingletonUndefinedRef.

(** Reading through a reference. *)
Definition deref (w : World) (r : TensorRef) : Tensor :=
  match r with
  | ContentRef this level =>
      default UndefinedTensor (content_ (grad_at w this) !! level)
  | SingletonUndefinedRef => singleton_undefined_tensor
  end.

(** Modelled from the spec: the body of [ForwardGrad::value] is missing.
    "returns the stored value for index, or the shared sentinel undefined
    value if absent". *)
Definition value (this : GradPtr) (level : N) : M TensorRef :=
  gets (λ w, match content_ (grad_at w this) !! level with
             | Some _ => ContentRef this level
             | None => undef_grad
             end).

(** Modelled from the spec: the body of [ForwardADLevel::~ForwardADLevel] is
    missing. "for every member holder it must invoke the holder's per-scope
    reset so the holder's entry for this index disappears", where the level
    "already owns the removal from its side": the reset does not call back
    into the table. *)
Definition ForwardADLevel_destroy (l : ForwardADLevel) : M unit :=
  for_each (elements (grads_ l)) (λ grad, reset grad (idx_ l) false).

(** Modelled from the spec: the body of [ForwardADLevel::get_next_idx] is
    missing. "allocates a new Scope with a fresh index, registers it as
    active, returns the index", an index that is held by no live Scope and
    that may be one released before. How the counter of the spec picks the
    index is not fixed there; the model takes [fresh] of the live indices. *)
Definition get_next_idx : M N :=
  let* new_index := gets (λ w, fresh (dom (all_forward_levels_ w))) in
  modify (λ w, mkWorld
    (<[new_index := new_ForwardADLevel new_index]> (all_forward_levels_ w))
    (grad_heap w)) ;>
  ret new_index.

(** Modelled from the spec: the body of [ForwardADLevel::release_idx] is
    missing. "removes the Scope at index from active and destroys it";
    an index that is not active is an [UnknownScope] (a double release). *)
Definition release_idx (idx : N) : M unit :=
  let* found := gets (λ w, all_forward_levels_ w !! idx) in
  match found with
  | None => throw UnknownScope
  | Some l =>
      modify (λ w, mkWorld (delete idx (all_forward_levels_ w)) (grad_heap w)) ;>
      ForwardADLevel_destroy l
  end.

(** ** Call sequences *)

(** One call of the interface, by any caller. *)
Inductive Call : Type :=
  | CallNextIdx
  | CallReleaseIdx (idx : N)
  | CallSetValue (this : GradPtr) (value : Tensor) (level : N)
  | CallReset (this : GradPtr) (level : N) (update_level : bool)
  | CallClear (this : GradPtr).

(** The world after the call, whether it returned or threw. *)
Definition step (w : World) (c : Call) : World :=
  match c with
  | CallNextIdx => world_of (get_next_idx w)
  | CallReleaseIdx idx => world_of (release_idx idx w)
  | CallSetValue this v level => world_of (set_value this v level w)
  | CallReset this level ul => world_of (reset this level ul w)
  | CallClear this => world_of (clear this w)
  end.

Definition run (w : World) (calls : list Call) : World :=
  foldl step w calls.

(** Observations on a world. *)
Definition content_of (w : World) (this : GradPtr) : gmap N Tensor :=
  content_ (grad_at w this).

Definition has_entry (w : World) (this : GradPtr) (level : N) : Prop :=
  is_Some (content_of w this !! level).

(** The live level at [level] lists the holder. *)
Definition registered (w : World) (this : GradPtr) (level : N) : Prop :=
  ∃ l, all_forward_levels_ w !! level = Some l ∧ this ∈ grads_ l.

Definition is_active (w : World) (level : N) : Prop :=
  is_Some (all_forward_levels_ w !! level).

(** ** Observations and statements *)

Definition drop_grad (this : GradPtr) (l : ForwardADLevel) : ForwardADLevel :=
  mkLevel (grads_ l ∖ {[this]}) (idx_ l).

Definition add_grad (this : GradPtr) (l : ForwardADLevel) : ForwardADLevel :=
  mkLevel ({[this]} ∪ grads_ l) (idx_ l).

(** Every live level is stored under its own [idx_]. *)
Definition level_idx_ok (w : World) : Prop :=
  ∀ i l, all_forward_levels_ w !! i = Some l → idx_ l = i.

(** The holder is not [clear]ed in the sequence. *)
Definition never_cleared (this : GradPtr) (calls : list Call) : Prop :=
  Forall (λ c, c ≠ CallClear this) calls.

(** Every [reset] of the sequence is one with the default
    [update_level = true]. *)
Definition default_resets (calls : list Call) : Prop :=
  Forall (λ c, ∀ this level, c ≠ CallReset this level false) calls.

(** The tensor seen through the reference that [value] returns. *)
Definition value_read (w : World) (this : GradPtr) (level : N) : option Tensor :=
  deref w <$> returns (value this level w).

(** The statement that a second [set_value] replaces the entry. *)
Definition set_overwrites (w : World) (this : GradPtr) (v1 v2 : Tensor)
    (i : N) : Prop :=
  is_active w i →
  content_of (run w [CallSetValue this v1 i; CallSetValue this v2 i]) this !! i
    = Some v2 ∧
  value_read (run w [CallSetValue this v1 i; CallSetValue this v2 i]) this i
    = Some v2.

(** Holder 7 is cleared while level 0 is live, then level 0 is released:
    its entry for level 0 is still there and level 0 is not live. *)
Definition stale_entry_world : World :=
  run initial_world
    [CallNextIdx; CallSetValue 7 (TensorImpl 1) 0; CallClear 7; CallReleaseIdx 0].

(** The statement for any holder, whatever it holds already. *)
Definition two_levels_independent (w : World) (this : GradPtr)
    (v1 v2 : Tensor) (A B : N) : Prop :=
  A ≠ B → is_active w A → is_active w B →
  value_read (run w [CallSetValue this v1 A; CallSetValue this v2 B]) this A
    = Some v1 ∧
  value_read (run w [CallSetValue this v1 A; CallSetValue this v2 B]) this B
    = Some v2 ∧
  value_read
    (run w [CallSetValue this v1 A; CallSetValue this v2 B;
            CallReset this A true]) this B = Some v2.

(** The statement for a holder and an index: where a level is live at [i],
    the holder has an entry for [i] exactly when that level lists it. *)
Definition bidirectional (w : World) (this : GradPtr) (i : N) : Prop :=
  ∀ l, all_forward_levels_ w !! i = Some l →
       (has_entry w this i ↔ this ∈ grads_ l).

Fixpoint remove_first (i : N) (l : list N) : list N :=
  match l with
  | [] => []
  | j :: l' => if decide (i = j) then l' else j :: remove_first i l'
  end.

(** The world together with the indices that [get_next_idx] has returned
    and that no returning [release_idx] has released since. *)
Definition track (st : World * list N) (c : Call) : World * list N :=
  (step st.1 c,
   match c with
   | CallNextIdx =>
       match returns (get_next_idx st.1) with
       | Some i => i :: st.2
       | None => st.2
       end
   | CallReleaseIdx idx =>
       match returns (release_idx idx st.1) with
       | Some _ => remove_first idx st.2
       | None => st.2
       end
   | _ => st.2
   end).

Definition live_indices (calls : list Call) : list N :=
  (foldl track (initial_world, []) calls).2.

(** The tracked indices are the live ones, each once. *)
Definition live_ok (st : World * list N) : Prop :=
  NoDup st.2 ∧ ∀ i, i ∈ st.2 ↔ is_active st.1 i.

(** No call of the sequence is a [set_value] or a [reset] made on the
    holder: the calls are on other holders, on the level table, or [clear]. *)
Definition leaves_alone (this : GradPtr) (calls : list Call) : Prop :=
  Forall (λ c, match c with
               | CallSetValue h _ _ | CallReset h _ _ => h ≠ this
               | _ => True
               end) calls.

(** The statement that [clear] returns and leaves the holder without
    entries. *)
Definition clear_leaves_no_entries (w : World) (this : GradPtr) : Prop :=
  returns (clear this w) = Some tt ∧
  content_of (step w (CallClear this)) this = ∅.

(** The statement for a holder that called [set_value v1 i] on a live
    level, with no condition on the calls that follow: once
    [release_idx i] has returned and a later [get_next_idx] returns [i],
    [contains i] is false. *)
Definition recycled_entry_hidden (before between after : list Call)
    (this : GradPtr) (v1 : Tensor) (i : N) : Prop :=
  returns (set_value this v1 i (run initial_world before)) = Some tt →
  returns (release_idx i
    (run initial_world (before ++ CallSetValue this v1 i :: between)))
    = Some tt →
  returns (get_next_idx
    (run initial_world
       (before ++ CallSetValue this v1 i :: between ++ CallReleaseIdx i :: after)))
    = Some i →
  returns (contains this i
    (run initial_world
       ((before ++ CallSetValue this v1 i :: between ++ CallReleaseIdx i :: after)
        ++ [CallNextIdx]))) = Some false.

(** * Properties *)

(** ** The two kinds of update *)

Lemma content_of_with_content this f w h :
  content_of (with_content this f w) h =
  if decide (h = this) then f (content_of w this) else content_of w h.
Proof.
  unfold content_of, grad_at, with_content; simpl.
  case_decide as Hh.
  - subst h. by rewrite lookup_insert_eq.
  - by rewrite lookup_insert_ne.
Qed.

Lemma levels_with_grads lvl f w i :
  all_forward_levels_ (with_grads lvl f w) !! i =
  if decide (i = lvl)
  then (λ l, mkLevel (f (grads_ l)) (idx_ l)) <$> all_forward_levels_ w !! i
  else all_forward_levels_ w !! i.
Proof.
  unfold with_grads; simpl. rewrite lookup_alter.
  repeat case_decide; congruence.
Qed.

Lemma with_grads_inactive lvl f w :
  all_forward_levels_ w !! lvl = None → with_grads lvl f w = w.
Proof.
  intros Hnone. destruct w as [lv hp]; unfold with_grads; simpl in *.
  f_equal. apply map_eq; intros i. rewrite lookup_alter.
  case_decide; [subst i; by rewrite Hnone | done].
Qed.

(** ** What each method does to the world *)

Lemma get_by_idx_active idx w l :
  all_forward_levels_ w !! idx = Some l → get_by_idx idx w = (w, inr idx).
Proof. intros H. unfold get_by_idx. by rewrite H. Qed.

Lemma get_by_idx_inactive idx w :
  all_forward_levels_ w !! idx = None →
  get_by_idx idx w = (w, inl UnknownScope).
Proof. intros H. unfold get_by_idx. by rewrite H. Qed.

Lemma set_value_active this v level w l :
  all_forward_levels_ w !! level = Some l →
  set_value this v level w =
  (with_content this (unordered_map_insert level v)
     (with_grads level (λ g, {[this]} ∪ g) w), inr tt).
Proof.
  intros H. unfold set_value, bind.
  by rewrite (get_by_idx_active _ _ _ H).
Qed.

Lemma set_value_inactive this v level w :
  all_forward_levels_ w !! level = None →
  set_value this v level w = (w, inl UnknownScope).
Proof.
  intros H. unfold set_value, bind.
  by rewrite (get_by_idx_inactive _ _ H).
Qed.

Lemma reset_active this level w l :
  all_forward_levels_ w !! level = Some l →
  reset this level true w =
  (with_content this (unordered_map_erase level)
     (with_grads level (λ g, g ∖ {[this]}) w), inr tt).
Proof.
  intros H. unfold reset, bind.
  by rewrite (get_by_idx_active _ _ _ H).
Qed.

Lemma reset_inactive this level w :
  all_forward_levels_ w !! level = None →
  reset this level true w = (w, inl UnknownScope).
Proof.
  intros H. unfold reset, bind.
  by rewrite (get_by_idx_inactive _ _ H).
Qed.

Lemma reset_local this level w :
  reset this level false w =
  (with_content this (unordered_map_erase level) w, inr tt).
Proof. reflexivity. Qed.

(** The loop of the destructor: every listed holder loses its entry. *)
Lemma destroy_loop k hs w :
  for_each hs (λ grad, reset grad k false) w =
  (foldl (λ w' g, with_content g (unordered_map_erase k) w') w hs, inr tt).
Proof.
  revert w. induction hs as [|g hs IH]; intros w; [done|].
  simpl. unfold bind at 1. rewrite reset_local. apply IH.
Qed.

Lemma destroy_loop_levels k hs w :
  all_forward_levels_
    (foldl (λ w' g, with_content g (unordered_map_erase k) w') w hs) =
  all_forward_levels_ w.
Proof. revert w. induction hs as [|g hs IH]; intros w; [done|]. simpl. by rewrite IH. Qed.

Lemma destroy_loop_content k hs w h :
  content_of (foldl (λ w' g, with_content g (unordered_map_erase k) w') w hs) h =
  if decide (h ∈ hs) then delete k (content_of w h) else content_of w h.
Proof.
  revert w. induction hs as [|g hs IH]; intros w; cbn [foldl].
  - rewrite decide_False; [done | apply not_elem_of_nil].
  - rewrite IH, !content_of_with_content. unfold unordered_map_erase.
    destruct (decide (h = g)) as [->|Hne].
    + rewrite (decide_True (P := g ∈ g :: hs)) by left.
      case_decide; [by rewrite delete_delete_eq | done].
    + destruct (decide (h ∈ hs)) as [Hin|Hin].
      * by rewrite (decide_True (P := _ ∈ _ :: _)) by (by right).
      * rewrite (decide_False (P := _ ∈ _ :: _)); [done|].
        rewrite elem_of_cons. tauto.
Qed.

(** The loop of [clear]: every listed level drops the holder. *)
Lemma clear_loop this ks w :
  for_each ks (λ l_idx,
    let* level := try_get_by_idx l_idx in
    match level with
    | Some lvl => ForwardADLevel_erase lvl this
    | None => ret tt
    end) w =
  (foldl (λ w' i, with_grads i (λ g, g ∖ {[this]}) w') w ks, inr tt).
Proof.
  revert w. induction ks as [|i ks IH]; intros w; [done|].
  simpl. unfold bind at 1. unfold bind at 1, try_get_by_idx.
  destruct (all_forward_levels_ w !! i) as [l|] eqn:Hl.
  - apply IH.
  - unfold ret. rewrite (with_grads_inactive _ _ _ Hl). apply IH.
Qed.

Lemma clear_loop_heap this ks w :
  grad_heap (foldl (λ w' i, with_grads i (λ g, g ∖ {[this]}) w') w ks) =
  grad_heap w.
Proof. revert w. induction ks as [|i ks IH]; intros w; [done|]. simpl. by rewrite IH. Qed.

Lemma clear_loop_levels this ks w i :
  all_forward_levels_
    (foldl (λ w' i, with_grads i (λ g, g ∖ {[this]}) w') w ks) !! i =
  if decide (i ∈ ks)
  then drop_grad this <$> all_forward_levels_ w !! i
  else all_forward_levels_ w !! i.
Proof.
  revert w. induction ks as [|k ks IH]; intros w; cbn [foldl].
  - rewrite decide_False; [done | apply not_elem_of_nil].
  - rewrite IH, levels_with_grads.
    destruct (decide (i = k)) as [->|Hne].
    + rewrite (decide_True (P := k ∈ k :: ks)) by left.
      case_decide; [|done].
      destruct (all_forward_levels_ w !! k) as [l|]; [|done].
      simpl. unfold drop_grad; simpl. f_equal. f_equal.
      apply set_eq; intros x. rewrite !elem_of_difference. tauto.
    + destruct (decide (i ∈ ks)) as [Hin|Hin].
      * by rewrite (decide_True (P := _ ∈ _ :: _)) by (by right).
      * rewrite (decide_False (P := _ ∈ _ :: _)); [done|].
        rewrite elem_of_cons. tauto.
Qed.

Lemma release_idx_active idx w l :
  all_forward_levels_ w !! idx = Some l →
  release_idx idx w =
  (foldl (λ w' g, with_content g (unordered_map_erase (idx_ l)) w')
     (mkWorld (delete idx (all_forward_levels_ w)) (grad_heap w))
     (elements (grads_ l)), inr tt).
Proof.
  intros H. unfold release_idx, bind, gets. rewrite H.
  unfold modify, ForwardADLevel_destroy. apply destroy_loop.
Qed.

Lemma release_idx_inactive idx w :
  all_forward_levels_ w !! idx = None →
  release_idx idx w = (w, inl UnknownScope).
Proof. intros H. unfold release_idx, bind, gets. by rewrite H. Qed.

Lemma clear_unfold this w :
  clear this w =
  (foldl (λ w' i, with_grads i (λ g, g ∖ {[this]}) w') w
     (map_to_list (content_of w this)).*1, inr tt).
Proof. unfold clear, bind, gets. apply clear_loop. Qed.

Lemma elem_of_content_keys (m : gmap N Tensor) i :
  i ∈ (map_to_list m).*1 ↔ is_Some (m !! i).
Proof.
  rewrite list_elem_of_fmap. split.
  - intros [[j v] [-> Hin]]. apply elem_of_map_to_list in Hin. by exists v.
  - intros [v Hv]. exists (i, v). split; [done|]. by apply elem_of_map_to_list.
Qed.

(** ** Entries, membership and liveness after each call *)

Lemma has_entry_with_content this f w h i :
  has_entry (with_content this f w) h i ↔
  if decide (h = this) then is_Some (f (content_of w this) !! i)
  else has_entry w h i.
Proof.
  unfold has_entry. rewrite content_of_with_content. by case_decide.
Qed.

Lemma registered_with_grads_add this lvl w h i :
  is_active w lvl →
  registered (with_grads lvl (λ g, {[this]} ∪ g) w) h i ↔
  registered w h i ∨ (h = this ∧ i = lvl).
Proof.
  intros [l0 Hl0]. unfold registered. setoid_rewrite levels_with_grads.
  case_decide as Hi.
  - subst i. rewrite Hl0. simpl. split.
    + intros [l [[= <-] Hin]]. simpl in Hin.
      apply elem_of_union in Hin as [Hin%elem_of_singleton|Hin]; eauto.
    + intros [[l [[= <-] Hin]] | [-> _]]; eexists; (split; [done|]); simpl;
        apply elem_of_union; [by right | left; by apply elem_of_singleton].
  - split; [by left | intros [?|[_ ?]]; done].
Qed.

Lemma registered_with_grads_drop this lvl w h i :
  registered (with_grads lvl (λ g, g ∖ {[this]}) w) h i ↔
  registered w h i ∧ ¬ (h = this ∧ i = lvl).
Proof.
  unfold registered. setoid_rewrite levels_with_grads.
  case_decide as Hi.
  - subst i. destruct (all_forward_levels_ w !! lvl) as [l0|] eqn:Hl0; simpl.
    + split.
      * intros [l [[= <-] Hin]]. simpl in Hin.
        apply elem_of_difference in Hin as [Hin Hne].
        split; [eauto|]. intros [-> _]. apply Hne. by apply elem_of_singleton.
      * intros [[l [[= <-] Hin]] Hne]. eexists; split; [done|]. simpl.
        apply elem_of_difference. split; [done|].
        intros Heq%elem_of_singleton. by apply Hne.
    + split; [by intros [l [? _]] | by intros [[l [? _]] _]].
  - split; [intros H; split; [done | by intros [_ ?]] | by intros [? _]].
Qed.

Lemma is_active_with_grads lvl f w i :
  is_active (with_grads lvl f w) i ↔ is_active w i.
Proof.
  unfold is_active. rewrite levels_with_grads.
  case_decide; [|done]. by rewrite fmap_is_Some.
Qed.

Lemma has_entry_insert k v (m : gmap N Tensor) i :
  is_Some (unordered_map_insert k v m !! i) ↔ is_Some (m !! i) ∨ i = k.
Proof.
  unfold unordered_map_insert.
  destruct (m !! k) as [v0|] eqn:Hk.
  - split; [by left | intros [?| ->]; [done | by rewrite Hk]].
  - rewrite lookup_insert. case_decide as Hd.
    + subst i. split; [by right | by intros _].
    + split; [by left | intros [?|?]; [done | by subst]].
Qed.

Lemma has_entry_erase k (m : gmap N Tensor) i :
  is_Some (unordered_map_erase k m !! i) ↔ is_Some (m !! i) ∧ i ≠ k.
Proof.
  unfold unordered_map_erase. rewrite lookup_delete. case_decide as Hd.
  - subst i. split; [by intros [? ?] | by intros [_ ?]].
  - split; [intros H; split; [done | by intros ->] | by intros [? _]].
Qed.

Lemma fresh_inactive w :
  all_forward_levels_ w !! fresh (dom (all_forward_levels_ w)) = None.
Proof. apply not_elem_of_dom, is_fresh. Qed.

Lemma get_next_idx_unfold w :
  get_next_idx w =
  (mkWorld
     (<[fresh (dom (all_forward_levels_ w)) :=
          new_ForwardADLevel (fresh (dom (all_forward_levels_ w)))]>
        (all_forward_levels_ w))
     (grad_heap w),
   inr (fresh (dom (all_forward_levels_ w)))).
Proof. reflexivity. Qed.

Lemma registered_next w h i :
  registered (world_of (get_next_idx w)) h i ↔ registered w h i.
Proof.
  rewrite get_next_idx_unfold. unfold registered, world_of; simpl.
  setoid_rewrite lookup_insert. case_decide as Hd.
  - subst i. rewrite fresh_inactive. split.
    + intros [l [[= <-] Hin]]. simpl in Hin. by apply not_elem_of_empty in Hin.
    + by intros [l [? _]].
  - done.
Qed.

Lemma is_active_next w i :
  is_active (world_of (get_next_idx w)) i ↔
  is_active w i ∨ i = fresh (dom (all_forward_levels_ w)).
Proof.
  rewrite get_next_idx_unfold. unfold is_active, world_of; simpl.
  rewrite lookup_insert. case_decide as Hd.
  - subst i. split; [by right | by intros _].
  - split; [by left | intros [?|?]; [done | by subst]].
Qed.

Lemma content_of_next w h :
  content_of (world_of (get_next_idx w)) h = content_of w h.
Proof. reflexivity. Qed.

Lemma has_entry_release idx w l h i :
  all_forward_levels_ w !! idx = Some l →
  has_entry (world_of (release_idx idx w)) h i ↔
  has_entry w h i ∧ ¬ (h ∈ grads_ l ∧ i = idx_ l).
Proof.
  intros Hl. rewrite (release_idx_active _ _ _ Hl).
  unfold has_entry, world_of; simpl. rewrite destroy_loop_content.
  change (content_of (mkWorld _ (grad_heap w)) h) with (content_of w h).
  case_decide as Hin.
  - apply elem_of_elements in Hin.
    rewrite (has_entry_erase (idx_ l)). split.
    + intros [He Hne]. split; [done|]. by intros [_ ?].
    + intros [He Hne]. split; [done|]. intros ->. by apply Hne.
  - rewrite elem_of_elements in Hin. split.
    + intros He. split; [done|]. by intros [? _].
    + by intros [? _].
Qed.

Lemma levels_release idx w l :
  all_forward_levels_ w !! idx = Some l →
  all_forward_levels_ (world_of (release_idx idx w)) =
  delete idx (all_forward_levels_ w).
Proof.
  intros Hl. rewrite (release_idx_active _ _ _ Hl).
  unfold world_of; simpl. by rewrite destroy_loop_levels.
Qed.

Lemma registered_release idx w l h i :
  all_forward_levels_ w !! idx = Some l →
  registered (world_of (release_idx idx w)) h i ↔ registered w h i ∧ i ≠ idx.
Proof.
  intros Hl. unfold registered. rewrite (levels_release _ _ _ Hl).
  setoid_rewrite lookup_delete. case_decide as Hd.
  - subst i. split; [by intros [? [? _]] | by intros [_ ?]].
  - split; [intros H; split; [done | by intros ->] | by intros [? _]].
Qed.

Lemma is_active_release idx w l i :
  all_forward_levels_ w !! idx = Some l →
  is_active (world_of (release_idx idx w)) i ↔ is_active w i ∧ i ≠ idx.
Proof.
  intros Hl. unfold is_active. rewrite (levels_release _ _ _ Hl).
  rewrite lookup_delete. case_decide as Hd.
  - subst i. split; [by intros [? ?] | by intros [_ ?]].
  - split; [intros H; split; [done | by intros ->] | by intros [? _]].
Qed.

Lemma has_entry_set this v level w l h i :
  all_forward_levels_ w !! level = Some l →
  has_entry (world_of (set_value this v level w)) h i ↔
  has_entry w h i ∨ (h = this ∧ i = level).
Proof.
  intros Hl. rewrite (set_value_active _ _ _ _ _ Hl). unfold world_of; simpl.
  rewrite has_entry_with_content. case_decide as Hd.
  - subst h. change (content_of (with_grads _ _ w) this) with (content_of w this).
    rewrite has_entry_insert. unfold has_entry. tauto.
  - change (has_entry (with_grads _ _ w) h i) with (has_entry w h i). tauto.
Qed.

Lemma registered_set this v level w l h i :
  all_forward_levels_ w !! level = Some l →
  registered (world_of (set_value this v level w)) h i ↔
  registered w h i ∨ (h = this ∧ i = level).
Proof.
  intros Hl. rewrite (set_value_active _ _ _ _ _ Hl). unfold world_of; simpl.
  rewrite <- (registered_with_grads_add this level w h i) by (by exists l).
  done.
Qed.

Lemma has_entry_reset this level w l h i :
  all_forward_levels_ w !! level = Some l →
  has_entry (world_of (reset this level true w)) h i ↔
  has_entry w h i ∧ ¬ (h = this ∧ i = level).
Proof.
  intros Hl. rewrite (reset_active _ _ _ _ Hl). unfold world_of; simpl.
  rewrite has_entry_with_content. case_decide as Hd.
  - subst h. change (content_of (with_grads _ _ w) this) with (content_of w this).
    rewrite has_entry_erase. unfold has_entry. tauto.
  - change (has_entry (with_grads _ _ w) h i) with (has_entry w h i). tauto.
Qed.

Lemma registered_reset this level w l h i :
  all_forward_levels_ w !! level = Some l →
  registered (world_of (reset this level true w)) h i ↔
  registered w h i ∧ ¬ (h = this ∧ i = level).
Proof.
  intros Hl. rewrite (reset_active _ _ _ _ Hl). unfold world_of; simpl.
  by rewrite <- (registered_with_grads_drop this level w h i).
Qed.

Lemma has_entry_reset_local this level w h i :
  has_entry (world_of (reset this level false w)) h i ↔
  has_entry w h i ∧ ¬ (h = this ∧ i = level).
Proof.
  rewrite reset_local. unfold world_of; simpl.
  rewrite has_entry_with_content. case_decide as Hd.
  - subst h. rewrite has_entry_erase. unfold has_entry. tauto.
  - tauto.
Qed.

Lemma content_of_clear this w h :
  content_of (world_of (clear this w)) h = content_of w h.
Proof.
  rewrite clear_unfold. unfold world_of, content_of, grad_at; simpl.
  by rewrite clear_loop_heap.
Qed.

Lemma levels_clear this w i :
  all_forward_levels_ (world_of (clear this w)) !! i =
  if decide (has_entry w this i)
  then drop_grad this <$> all_forward_levels_ w !! i
  else all_forward_levels_ w !! i.
Proof.
  rewrite clear_unfold. unfold world_of; simpl. rewrite clear_loop_levels.
  destruct (decide (has_entry w this i)) as [He|He].
  - rewrite decide_True; [done|]. by apply elem_of_content_keys.
  - rewrite decide_False; [done|]. by rewrite elem_of_content_keys.
Qed.

Lemma registered_clear this w h i :
  registered (world_of (clear this w)) h i ↔
  registered w h i ∧ ¬ (h = this ∧ has_entry w this i).
Proof.
  unfold registered. setoid_rewrite levels_clear. case_decide as He.
  - destruct (all_forward_levels_ w !! i) as [l0|]; simpl.
    + split.
      * intros [l [[= <-] Hin]]. simpl in Hin.
        apply elem_of_difference in Hin as [Hin Hne].
        split; [eauto|]. intros [-> _]. apply Hne. by apply elem_of_singleton.
      * intros [[l [[= <-] Hin]] Hne]. eexists; split; [done|]. simpl.
        apply elem_of_difference. split; [done|].
        intros Heq%elem_of_singleton. by apply Hne.
    + split; [by intros [l [? _]] | by intros [[l [? _]] _]].
  - split; [intros H; split; [done | by intros [_ ?]] | by intros [? _]].
Qed.

Lemma is_active_clear this w i :
  is_active (world_of (clear this w)) i ↔ is_active w i.
Proof.
  unfold is_active. rewrite levels_clear.
  case_decide; [|done]. by rewrite fmap_is_Some.
Qed.

(** ** Invariants of call sequences *)

Lemma level_idx_ok_initial : level_idx_ok initial_world.
Proof. intros i l. unfold initial_world; simpl. by rewrite lookup_empty. Qed.

Lemma level_idx_ok_with_grads lvl f w :
  level_idx_ok w → level_idx_ok (with_grads lvl f w).
Proof.
  intros Hok i l. rewrite levels_with_grads. case_decide.
  - destruct (all_forward_levels_ w !! i) as [l0|] eqn:Hl0; [|done].
    intros [= <-]. simpl. by apply Hok.
  - apply Hok.
Qed.

Lemma level_idx_ok_step w c : level_idx_ok w → level_idx_ok (step w c).
Proof.
  intros Hok. destruct c as [|idx|this v level|this level ul|this]; cbn [step].
  - intros i l. rewrite get_next_idx_unfold. unfold world_of; simpl.
    rewrite lookup_insert. case_decide as Hd; [|apply Hok].
    by intros [= <-].
  - destruct (all_forward_levels_ w !! idx) as [l0|] eqn:Hl0.
    + intros i l. rewrite (levels_release _ _ _ Hl0), lookup_delete.
      case_decide; [done | apply Hok].
    + by rewrite (release_idx_inactive _ _ Hl0).
  - destruct (all_forward_levels_ w !! level) as [l0|] eqn:Hl0.
    + rewrite (set_value_active _ _ _ _ _ Hl0). unfold world_of; simpl.
      intros i l. apply (level_idx_ok_with_grads _ _ _ Hok).
    + by rewrite (set_value_inactive _ _ _ _ Hl0).
  - destruct ul.
    + destruct (all_forward_levels_ w !! level) as [l0|] eqn:Hl0.
      * rewrite (reset_active _ _ _ _ Hl0). unfold world_of; simpl.
        intros i l. apply (level_idx_ok_with_grads _ _ _ Hok).
      * by rewrite (reset_inactive _ _ _ Hl0).
    + rewrite reset_local. unfold world_of; simpl. apply Hok.
  - intros i l. rewrite levels_clear. case_decide; [|apply Hok].
    destruct (all_forward_levels_ w !! i) as [l0|] eqn:Hl0; [|done].
    intros [= <-]. simpl. by apply Hok.
Qed.

Lemma level_idx_ok_run w calls : level_idx_ok w → level_idx_ok (run w calls).
Proof.
  revert w. induction calls as [|c calls IH]; intros w Hok; [done|].
  simpl. apply IH. by apply level_idx_ok_step.
Qed.

(** An entry of the holder is backed by a live level that lists it: kept by
    every call but a [clear] of that holder. *)
Lemma entry_registered_step w c h i :
  level_idx_ok w →
  c ≠ CallClear h →
  (has_entry w h i → registered w h i) →
  has_entry (step w c) h i → registered (step w c) h i.
Proof.
  intros Hok Hc Hinv.
  destruct c as [|idx|this v level|this level ul|this]; cbn [step].
  - rewrite registered_next. apply Hinv.
  - destruct (all_forward_levels_ w !! idx) as [l0|] eqn:Hl0.
    + rewrite (has_entry_release _ _ _ _ _ Hl0), (registered_release _ _ _ _ _ Hl0).
      intros [He Hne]. split; [by apply Hinv|]. intros ->.
      apply Hne. destruct (Hinv He) as [l [Hl Hin]].
      rewrite Hl0 in Hl. injection Hl as <-. split; [done|].
      symmetry. by apply Hok.
    + by rewrite (release_idx_inactive _ _ Hl0).
  - destruct (all_forward_levels_ w !! level) as [l0|] eqn:Hl0.
    + rewrite (has_entry_set _ _ _ _ _ _ _ Hl0), (registered_set _ _ _ _ _ _ _ Hl0).
      tauto.
    + by rewrite (set_value_inactive _ _ _ _ Hl0).
  - destruct ul.
    + destruct (all_forward_levels_ w !! level) as [l0|] eqn:Hl0.
      * rewrite (has_entry_reset _ _ _ _ _ _ Hl0), (registered_reset _ _ _ _ _ _ Hl0).
        tauto.
      * by rewrite (reset_inactive _ _ _ Hl0).
    + rewrite has_entry_reset_local.
      change (registered (world_of (reset this level false w)) h i)
        with (registered w h i).
      tauto.
  - unfold has_entry. rewrite content_of_clear, registered_clear.
    intros He. split; [by apply Hinv|]. intros [-> _]. by apply Hc.
Qed.

(** A holder listed by a live level has an entry for it: kept by every call
    but a [reset] that leaves the level alone. *)
Lemma registered_entry_step w c h i :
  level_idx_ok w →
  (∀ this level, c ≠ CallReset this level false) →
  (registered w h i → has_entry w h i) →
  registered (step w c) h i → has_entry (step w c) h i.
Proof.
  intros Hok Hc Hinv.
  destruct c as [|idx|this v level|this level ul|this]; cbn [step].
  - rewrite registered_next. apply Hinv.
  - destruct (all_forward_levels_ w !! idx) as [l0|] eqn:Hl0.
    + rewrite (has_entry_release _ _ _ _ _ Hl0), (registered_release _ _ _ _ _ Hl0).
      intros [Hr Hne]. split; [by apply Hinv|]. intros [_ ->].
      apply Hne. by apply Hok.
    + by rewrite (release_idx_inactive _ _ Hl0).
  - destruct (all_forward_levels_ w !! level) as [l0|] eqn:Hl0.
    + rewrite (has_entry_set _ _ _ _ _ _ _ Hl0), (registered_set _ _ _ _ _ _ _ Hl0).
      tauto.
    + by rewrite (set_value_inactive _ _ _ _ Hl0).
  - destruct ul; [|by destruct (Hc this level)].
    destruct (all_forward_levels_ w !! level) as [l0|] eqn:Hl0.
    + rewrite (has_entry_reset _ _ _ _ _ _ Hl0), (registered_reset _ _ _ _ _ _ Hl0).
      tauto.
    + by rewrite (reset_inactive _ _ _ Hl0).
  - unfold has_entry. rewrite content_of_clear, registered_clear.
    intros [Hr _]. by apply Hinv.
Qed.

Lemma entry_registered_run w calls h i :
  level_idx_ok w →
  never_cleared h calls →
  (has_entry w h i → registered w h i) →
  has_entry (run w calls) h i → registered (run w calls) h i.
Proof.
  revert w. induction calls as [|c calls IH]; intros w Hok Hnc Hinv; [done|].
  apply Forall_cons in Hnc as [Hc Hnc]. simpl. apply IH; [|done|].
  - by apply level_idx_ok_step.
  - by apply entry_registered_step.
Qed.

Lemma registered_entry_run w calls h i :
  level_idx_ok w →
  default_resets calls →
  (registered w h i → has_entry w h i) →
  registered (run w calls) h i → has_entry (run w calls) h i.
Proof.
  revert w. induction calls as [|c calls IH]; intros w Hok Hdr Hinv; [done|].
  apply Forall_cons in Hdr as [Hc Hdr]. simpl. apply IH; [|done|].
  - by apply level_idx_ok_step.
  - by apply registered_entry_step.
Qed.

Lemma no_entry_initial h i : ¬ has_entry initial_world h i.
Proof.
  unfold has_entry, content_of, grad_at, initial_world; simpl.
  rewrite lookup_empty; simpl. rewrite lookup_empty. by intros [? ?].
Qed.

Lemma not_registered_initial h i : ¬ registered initial_world h i.
Proof.
  unfold registered, initial_world; simpl. intros [l [Hl _]].
  by rewrite lookup_empty in Hl.
Qed.

(** ** [set_value] and [reset] as steps *)

Lemma is_active_set this v level w i :
  is_active (step w (CallSetValue this v level)) i ↔ is_active w i.
Proof.
  cbn [step]. destruct (all_forward_levels_ w !! level) as [l|] eqn:Hl.
  - rewrite (set_value_active _ _ _ _ _ Hl). unfold world_of; simpl.
    apply (is_active_with_grads level (λ g, {[this]} ∪ g) w i).
  - by rewrite (set_value_inactive _ _ _ _ Hl).
Qed.

Lemma content_of_set this v level w h :
  is_active w level →
  content_of (step w (CallSetValue this v level)) h =
  if decide (h = this) then unordered_map_insert level v (content_of w this)
  else content_of w h.
Proof.
  intros [l Hl]. cbn [step]. rewrite (set_value_active _ _ _ _ _ Hl).
  unfold world_of; simpl. by rewrite content_of_with_content.
Qed.

Lemma returns_set this v level w :
  is_active w level → returns (set_value this v level w) = Some tt.
Proof. intros [l Hl]. by rewrite (set_value_active _ _ _ _ _ Hl). Qed.

Lemma is_active_reset this level ul w i :
  is_active (step w (CallReset this level ul)) i ↔ is_active w i.
Proof.
  cbn [step]. destruct ul; [|done].
  destruct (all_forward_levels_ w !! level) as [l|] eqn:Hl.
  - rewrite (reset_active _ _ _ _ Hl). unfold world_of; simpl.
    apply (is_active_with_grads level (λ g, g ∖ {[this]}) w i).
  - by rewrite (reset_inactive _ _ _ Hl).
Qed.

Lemma content_of_reset this level w h :
  is_active w level →
  content_of (step w (CallReset this level true)) h =
  if decide (h = this) then unordered_map_erase level (content_of w this)
  else content_of w h.
Proof.
  intros [l Hl]. cbn [step]. rewrite (reset_active _ _ _ _ Hl).
  unfold world_of; simpl. by rewrite content_of_with_content.
Qed.

Lemma returns_reset this level w :
  is_active w level → returns (reset this level true w) = Some tt.
Proof. intros [l Hl]. by rewrite (reset_active _ _ _ _ Hl). Qed.

(** ** Reading a value *)

Lemma value_read_content w this level :
  value_read w this level =
  Some (default singleton_undefined_tensor (content_of w this !! level)).
Proof.
  unfold value_read, value, gets, returns; simpl.
  fold (content_of w this).
  destruct (content_of w this !! level) as [v|] eqn:Hv; simpl; [|done].
  unfold content_of in Hv. by rewrite Hv.
Qed.

(** ** [set_value] on an index that already has an entry *)

(** With level 0 live, holder 7 is given tensor 1 and then tensor 2 for level
    0: the entry and the value read are tensor 1. *)
Lemma set_overwrites_counterexample :
  ¬ set_overwrites (run initial_world [CallNextIdx]) 7 (TensorImpl 1)
      (TensorImpl 2) 0.
Proof.
  intros H. destruct H as [H _].
  - vm_compute. by eexists.
  - vm_compute in H. discriminate H.
Qed.

(** C1 (as amended): for every holder and every live level index [i], both
    [set_value v1 i] and a following [set_value v2 i] return, and the entry
    under [i], which a following [value i] reads, is the one the holder had
    before the two calls, or [v1] if it had none: an entry that is there is
    kept, not replaced. *)
Theorem set_value_keeps_first w this v1 v2 i :
  is_active w i →
  returns (set_value this v1 i w) = Some tt ∧
  returns (set_value this v2 i (step w (CallSetValue this v1 i))) = Some tt ∧
  content_of (run w [CallSetValue this v1 i; CallSetValue this v2 i]) this !! i
    = Some (default v1 (content_of w this !! i)) ∧
  value_read (run w [CallSetValue this v1 i; CallSetValue this v2 i]) this i
    = Some (default v1 (content_of w this !! i)).
Proof.
  intros Ha.
  assert (Ha1 : is_active (step w (CallSetValue this v1 i)) i)
    by by apply is_active_set.
  assert (Hc : content_of (run w [CallSetValue this v1 i; CallSetValue this v2 i])
                 this !! i = Some (default v1 (content_of w this !! i))).
  { cbn [run foldl].
    rewrite (content_of_set _ _ _ _ _ Ha1), decide_True by done.
    rewrite (content_of_set _ _ _ _ _ Ha), decide_True by done.
    unfold unordered_map_insert at 2.
    destruct (content_of w this !! i) as [v0|] eqn:Hv0; simpl.
    - unfold unordered_map_insert. by rewrite Hv0.
    - unfold unordered_map_insert. by rewrite !lookup_insert_eq. }
  split; [by apply returns_set|].
  split; [by apply returns_set|].
  split; [done|].
  by rewrite value_read_content, Hc.
Qed.

Lemma set_value_keeps_first_witness :
  is_active (run initial_world [CallNextIdx]) 0 ∧
  value_read
    (run (run initial_world [CallNextIdx])
       [CallSetValue 7 (TensorImpl 1) 0; CallSetValue 7 (TensorImpl 2) 0]) 7 0
  = Some (TensorImpl 1).
Proof.
  assert (Ha : is_active (run initial_world [CallNextIdx]) 0)
    by (vm_compute; by eexists).
  split; [exact Ha|].
  exact (proj2 (proj2 (proj2
    (set_value_keeps_first (run initial_world [CallNextIdx]) 7
       (TensorImpl 1) (TensorImpl 2) 0 Ha)))).
Defined.

(** ** Calls on an index that is not live *)

Lemma set_value_throws_inactive this value level w :
  ¬ is_active w level →
  throws (set_value this value level w) = Some UnknownScope.
Proof.
  intros Hna. rewrite set_value_inactive; [done|].
  by apply eq_None_not_Some.
Qed.

(** C9: when [set_value value level] throws [UnknownScope], [level] is not
    live and the world is the one before the call: the holder has the
    entries it had and is listed by the levels that listed it. The lookup of
    the level is the first thing the method does. *)
Theorem set_value_unknown_scope_unchanged w this value level :
  throws (set_value this value level w) = Some UnknownScope →
  ¬ is_active w level ∧
  world_of (set_value this value level w) = w ∧
  content_of (world_of (set_value this value level w)) this = content_of w this ∧
  (∀ i, registered (world_of (set_value this value level w)) this i ↔
        registered w this i).
Proof.
  intros Hthrow.
  destruct (all_forward_levels_ w !! level) as [l|] eqn:Hl.
  - rewrite (set_value_active _ _ _ _ _ Hl) in Hthrow. discriminate Hthrow.
  - rewrite (set_value_inactive _ _ _ _ Hl). unfold world_of; simpl.
    split; [|done]. unfold is_active. rewrite Hl. by intros [? ?].
Qed.

Lemma set_value_unknown_scope_unchanged_witness :
  throws (set_value 7 (TensorImpl 1) 3 (run initial_world [CallNextIdx]))
    = Some UnknownScope ∧
  world_of (set_value 7 (TensorImpl 1) 3 (run initial_world [CallNextIdx]))
    = run initial_world [CallNextIdx].
Proof.
  assert (Ht : throws (set_value 7 (TensorImpl 1) 3
                         (run initial_world [CallNextIdx])) = Some UnknownScope)
    by (vm_compute; reflexivity).
  split; [exact Ht|].
  exact (proj1 (proj2
    (set_value_unknown_scope_unchanged (run initial_world [CallNextIdx]) 7
       (TensorImpl 1) 3 Ht))).
Defined.

(** C10: when [level] is not live, [reset level] with the default
    [update_level = true] throws [UnknownScope] and leaves the world as it
    was, so an entry of the holder for [level] stays; [reset level false]
    returns, removes that entry and leaves the table of levels alone. *)
Theorem reset_unknown_scope_keeps_entry w this level :
  ¬ is_active w level →
  throws (reset this level true w) = Some UnknownScope ∧
  world_of (reset this level true w) = w ∧
  content_of (world_of (reset this level true w)) this !! level
    = content_of w this !! level ∧
  returns (reset this level false w) = Some tt ∧
  content_of (world_of (reset this level false w)) this !! level = None ∧
  all_forward_levels_ (world_of (reset this level false w))
    = all_forward_levels_ w.
Proof.
  intros Hna. apply eq_None_not_Some in Hna.
  rewrite (reset_inactive _ _ _ Hna), reset_local. unfold world_of; simpl.
  repeat (split; [done|]). split; [|done].
  rewrite content_of_with_content, decide_True by done.
  apply lookup_delete_eq.
Qed.

Lemma reset_unknown_scope_keeps_entry_witness :
  ¬ is_active stale_entry_world 0 ∧
  content_of stale_entry_world 7 !! 0 = Some (TensorImpl 1) ∧
  throws (reset 7 0 true stale_entry_world) = Some UnknownScope ∧
  content_of (world_of (reset 7 0 true stale_entry_world)) 7 !! 0
    = content_of stale_entry_world 7 !! 0 ∧
  content_of (world_of (reset 7 0 false stale_entry_world)) 7 !! 0 = None.
Proof.
  assert (Hna : ¬ is_active stale_entry_world 0).
  { vm_compute. intros [x Hx]. discriminate Hx. }
  pose proof (reset_unknown_scope_keeps_entry stale_entry_world 7 0 Hna)
    as (Ht & _ & Hkeep & _ & Hgone & _).
  split; [exact Hna|].
  split; [vm_compute; reflexivity|].
  split; [exact Ht|].
  split; [exact Hkeep | exact Hgone].
Defined.

(** ** The sentinel *)

(** C7: when the holder has no entry for [level], [value level] returns the
    reference to the sentinel and leaves the world as it was; any two such
    calls, on any holders, indices and worlds, return the same reference;
    and what that reference designates is the undefined tensor after every
    sequence of calls. *)
Theorem value_absent_sentinel w this level :
  content_of w this !! level = None →
  value this level w = (w, inr undef_grad) ∧
  value_read w this level = Some singleton_undefined_tensor ∧
  (∀ w' this' level',
     content_of w' this' !! level' = None →
     returns (value this' level' w') = returns (value this level w)) ∧
  (∀ calls, deref (run w calls) undef_grad = singleton_undefined_tensor).
Proof.
  intros Hnone.
  assert (Hv : ∀ w' this' level',
             content_of w' this' !! level' = None →
             value this' level' w' = (w', inr undef_grad)).
  { intros w' this' level' H'. unfold value, gets.
    unfold content_of in H'. by rewrite H'. }
  split; [by apply Hv|].
  split; [by rewrite value_read_content, Hnone|].
  split; [|done].
  intros w' this' level' H'. by rewrite (Hv _ _ _ H'), (Hv _ _ _ Hnone).
Qed.

Lemma value_absent_sentinel_witness :
  content_of (run initial_world [CallNextIdx; CallSetValue 7 (TensorImpl 1) 0])
    7 !! 5 = None ∧
  returns (value 7 5
    (run initial_world [CallNextIdx; CallSetValue 7 (TensorImpl 1) 0]))
    = Some undef_grad.
Proof.
  assert (Hn : content_of
                 (run initial_world [CallNextIdx; CallSetValue 7 (TensorImpl 1) 0])
                 7 !! 5 = None) by (vm_compute; reflexivity).
  split; [exact Hn|].
  exact (f_equal returns (proj1
    (value_absent_sentinel
       (run initial_world [CallNextIdx; CallSetValue 7 (TensorImpl 1) 0])
       7 5 Hn))).
Defined.

(** ** A level from [get_next_idx] to [release_idx] *)

Lemma levels_set this v level w i :
  all_forward_levels_ (step w (CallSetValue this v level)) !! i =
  if decide (i = level) then add_grad this <$> all_forward_levels_ w !! i
  else all_forward_levels_ w !! i.
Proof.
  cbn [step]. destruct (all_forward_levels_ w !! level) as [l|] eqn:Hl.
  - rewrite (set_value_active _ _ _ _ _ Hl). unfold world_of; simpl.
    apply (levels_with_grads level (λ g, {[this]} ∪ g) w i).
  - rewrite (set_value_inactive _ _ _ _ Hl). unfold world_of; simpl.
    case_decide; [subst i; by rewrite Hl | done].
Qed.

Lemma returns_contains w this level b :
  returns (contains this level w) = Some b ↔
  (has_entry w this level ↔ b = true).
Proof.
  unfold contains, gets, returns; simpl. fold (content_of w this).
  fold (has_entry w this level). split.
  - intros [= <-]. by rewrite bool_decide_eq_true.
  - intros Hb. f_equal. destruct b.
    + apply bool_decide_eq_true. by apply Hb.
    + apply bool_decide_eq_false. intros He. by apply Hb in He.
Qed.

Lemma returns_release idx w :
  is_active w idx → returns (release_idx idx w) = Some tt.
Proof. intros [l Hl]. by rewrite (release_idx_active _ _ _ Hl). Qed.

(** C4: in every world, [get_next_idx] returns an index [A] such that, for
    every holder, [set_value v1 A] returns and [contains A] is then true,
    and [release_idx A] returns and [contains A] is then false. *)
Theorem fresh_level_set_release w this v1 :
  ∃ A,
    returns (get_next_idx w) = Some A ∧
    returns (set_value this v1 A (run w [CallNextIdx])) = Some tt ∧
    returns (contains this A (run w [CallNextIdx; CallSetValue this v1 A]))
      = Some true ∧
    returns (release_idx A (run w [CallNextIdx; CallSetValue this v1 A]))
      = Some tt ∧
    returns (contains this A
      (run w [CallNextIdx; CallSetValue this v1 A; CallReleaseIdx A]))
      = Some false.
Proof.
  exists (fresh (dom (all_forward_levels_ w))).
  set (A := fresh (dom (all_forward_levels_ w))).
  set (w1 := run w [CallNextIdx]).
  assert (Hl1 : all_forward_levels_ w1 !! A = Some (new_ForwardADLevel A)).
  { unfold w1. cbn [run foldl step]. rewrite get_next_idx_unfold.
    unfold world_of; simpl. apply lookup_insert_eq. }
  assert (Ha1 : is_active w1 A) by by eexists.
  set (w2 := run w [CallNextIdx; CallSetValue this v1 A]).
  assert (Hw2 : w2 = step w1 (CallSetValue this v1 A)) by done.
  assert (Hl2 : all_forward_levels_ w2 !! A
                = Some (add_grad this (new_ForwardADLevel A))).
  { by rewrite Hw2, levels_set, decide_True, Hl1 by done. }
  assert (He2 : has_entry w2 this A).
  { rewrite Hw2. cbn [step]. rewrite (has_entry_set _ _ _ _ _ _ _ Hl1). by right. }
  split; [done|].
  split; [by apply returns_set|].
  split; [by apply returns_contains|].
  split; [apply returns_release; by eexists|].
  apply returns_contains.
  change (run w [CallNextIdx; CallSetValue this v1 A; CallReleaseIdx A])
    with (world_of (release_idx A w2)).
  rewrite (has_entry_release _ _ _ _ _ Hl2). split; [|done].
  intros [_ Hne]. exfalso. apply Hne. split; [|done].
  simpl. apply elem_of_union. left. by apply elem_of_singleton.
Qed.

(** Two holders at one level, from the empty table. *)
Example two_holders_one_level_run :
  returns (contains 7 0
    (run initial_world [CallNextIdx; CallSetValue 7 (TensorImpl 1) 0;
                        CallSetValue 8 (TensorImpl 2) 0])) = Some true ∧
  returns (contains 7 0
    (run initial_world [CallNextIdx; CallSetValue 7 (TensorImpl 1) 0;
                        CallSetValue 8 (TensorImpl 2) 0; CallReleaseIdx 0]))
    = Some false ∧
  returns (contains 8 0
    (run initial_world [CallNextIdx; CallSetValue 7 (TensorImpl 1) 0;
                        CallSetValue 8 (TensorImpl 2) 0; CallReleaseIdx 0]))
    = Some false.
Proof. vm_compute. done. Qed.

(** ** Two live levels *)

(** Levels 0 and 1 are live and holder 7 has tensor 9 for level 0; it is
    then given tensor 1 for level 0 and tensor 2 for level 1: [value 0] is
    tensor 9. *)
Lemma two_levels_independent_counterexample :
  ¬ two_levels_independent
      (run initial_world
         [CallNextIdx; CallNextIdx; CallSetValue 7 (TensorImpl 9) 0])
      7 (TensorImpl 1) (TensorImpl 2) 0 1.
Proof.
  intros H. destruct H as [H _].
  - done.
  - vm_compute. by eexists.
  - vm_compute. by eexists.
  - vm_compute in H. discriminate H.
Qed.

(** C8 (as amended): for two distinct live levels [A] and [B] and a holder
    that has no entry for either, after [set_value v1 A] and
    [set_value v2 B], [value A] reads [v1] and [value B] reads [v2]; a
    following [reset A] returns, removes the entry for [A] and leaves every
    other entry, so that [value B] still reads [v2]. *)
Theorem two_levels_set_reset w this v1 v2 A B :
  A ≠ B → is_active w A → is_active w B →
  content_of w this !! A = None → content_of w this !! B = None →
  value_read (run w [CallSetValue this v1 A; CallSetValue this v2 B]) this A
    = Some v1 ∧
  value_read (run w [CallSetValue this v1 A; CallSetValue this v2 B]) this B
    = Some v2 ∧
  returns (reset this A true
             (run w [CallSetValue this v1 A; CallSetValue this v2 B])) = Some tt ∧
  content_of
    (run w [CallSetValue this v1 A; CallSetValue this v2 B;
            CallReset this A true]) this !! A = None ∧
  (∀ j, j ≠ A →
     content_of
       (run w [CallSetValue this v1 A; CallSetValue this v2 B;
               CallReset this A true]) this !! j =
     content_of (run w [CallSetValue this v1 A; CallSetValue this v2 B])
       this !! j) ∧
  value_read
    (run w [CallSetValue this v1 A; CallSetValue this v2 B;
            CallReset this A true]) this B = Some v2.
Proof.
  intros Hne HaA HaB HnA HnB.
  set (w1 := step w (CallSetValue this v1 A)).
  set (w2 := run w [CallSetValue this v1 A; CallSetValue this v2 B]).
  set (w3 := run w [CallSetValue this v1 A; CallSetValue this v2 B;
                    CallReset this A true]).
  assert (HaB1 : is_active w1 B) by by apply is_active_set.
  assert (HaA2 : is_active w2 A) by by do 2 apply is_active_set.
  assert (Hc1 : content_of w1 this = <[A := v1]> (content_of w this)).
  { unfold w1. rewrite (content_of_set _ _ _ _ _ HaA), decide_True by done.
    unfold unordered_map_insert. by rewrite HnA. }
  assert (Hc2 : content_of w2 this = <[B := v2]> (<[A := v1]> (content_of w this))).
  { change w2 with (step w1 (CallSetValue this v2 B)).
    rewrite (content_of_set _ _ _ _ _ HaB1), decide_True by done.
    unfold unordered_map_insert.
    by rewrite Hc1, lookup_insert_ne, HnB by done. }
  assert (Hc3 : content_of w3 this = delete A (content_of w2 this)).
  { change w3 with (step w2 (CallReset this A true)).
    by rewrite (content_of_reset _ _ _ _ HaA2), decide_True by done. }
  rewrite !value_read_content, Hc3, Hc2.
  split; [by rewrite lookup_insert_ne, lookup_insert_eq by done|].
  split; [by rewrite lookup_insert_eq|].
  split; [by apply returns_reset|].
  split; [by rewrite lookup_delete_eq|].
  split; [intros j Hj; by rewrite lookup_delete_ne by done|].
  by rewrite lookup_delete_ne, lookup_insert_eq by done.
Qed.

Lemma two_levels_set_reset_witness :
  value_read
    (run (run initial_world [CallNextIdx; CallNextIdx])
       [CallSetValue 7 (TensorImpl 1) 0; CallSetValue 7 (TensorImpl 2) 1])
    7 0 = Some (TensorImpl 1) ∧
  value_read
    (run (run initial_world [CallNextIdx; CallNextIdx])
       [CallSetValue 7 (TensorImpl 1) 0; CallSetValue 7 (TensorImpl 2) 1;
        CallReset 7 0 true])
    7 1 = Some (TensorImpl 2).
Proof.
  assert (Hne : (0 : N) ≠ 1) by discriminate.
  assert (Ha0 : is_active (run initial_world [CallNextIdx; CallNextIdx]) 0)
    by (vm_compute; by eexists).
  assert (Ha1 : is_active (run initial_world [CallNextIdx; CallNextIdx]) 1)
    by (vm_compute; by eexists).
  assert (Hn0 : content_of (run initial_world [CallNextIdx; CallNextIdx]) 7 !! 0
                = None) by (vm_compute; reflexivity).
  assert (Hn1 : content_of (run initial_world [CallNextIdx; CallNextIdx]) 7 !! 1
                = None) by (vm_compute; reflexivity).
  pose proof (two_levels_set_reset
                (run initial_world [CallNextIdx; CallNextIdx]) 7
                (TensorImpl 1) (TensorImpl 2) 0 1 Hne Ha0 Ha1 Hn0 Hn1)
    as (HA & _ & _ & _ & _ & HB).
  split; [exact HA | exact HB].
Defined.

(** ** Holders that have not been cleared *)

Lemma entry_registered_reachable calls this i :
  never_cleared this calls →
  has_entry (run initial_world calls) this i →
  registered (run initial_world calls) this i.
Proof.
  intros Hnc. apply entry_registered_run; [apply level_idx_ok_initial|done|].
  intros He. by apply no_entry_initial in He.
Qed.

Lemma registered_entry_reachable calls this i :
  default_resets calls →
  registered (run initial_world calls) this i →
  has_entry (run initial_world calls) this i.
Proof.
  intros Hdr. apply registered_entry_run; [apply level_idx_ok_initial|done|].
  intros Hr. by apply not_registered_initial in Hr.
Qed.

Lemma run_app w calls1 calls2 :
  run w (calls1 ++ calls2) = run (run w calls1) calls2.
Proof. apply foldl_app. Qed.

(** Level 0 is allocated, holder 7 is given tensor 1 for it and is then
    cleared; level 0 is released and the next index allocated is 0 again:
    the entry of holder 7 for index 0 is still there. *)
Lemma recycled_entry_hidden_counterexample :
  ¬ recycled_entry_hidden [CallNextIdx] [CallClear 7] [] 7 (TensorImpl 1) 0.
Proof.
  intros H. unfold recycled_entry_hidden in H.
  assert (Hc : returns (contains 7 0
            (run initial_world
               (([CallNextIdx] ++ CallSetValue 7 (TensorImpl 1) 0
                   :: [CallClear 7] ++ CallReleaseIdx 0 :: [])
                ++ [CallNextIdx]))) = Some false).
  { apply H; vm_compute; reflexivity. }
  vm_compute in Hc. discriminate Hc.
Qed.

(** C5 (as amended): take a holder whose [set_value v1 i] returned, that
    is on a live level [i], and any calls after it among which
    [release_idx i] occurs and the holder is not cleared. If a
    [get_next_idx] after them returns the index [i] again, then
    [contains i] on the holder is false right after that allocation. *)
Theorem recycled_index_clean before between after this v1 i :
  returns (set_value this v1 i (run initial_world before)) = Some tt →
  never_cleared this (between ++ CallReleaseIdx i :: after) →
  returns (get_next_idx
    (run initial_world
       (before ++ CallSetValue this v1 i :: between ++ CallReleaseIdx i :: after)))
    = Some i →
  returns (contains this i
    (run initial_world
       ((before ++ CallSetValue this v1 i :: between ++ CallReleaseIdx i :: after)
        ++ [CallNextIdx]))) = Some false.
Proof.
  intros Hset Hnc Hnext.
  set (w0 := run initial_world before) in *.
  set (rest := between ++ CallReleaseIdx i :: after) in *.
  assert (Hrun : run initial_world (before ++ CallSetValue this v1 i :: rest)
                 = run (step w0 (CallSetValue this v1 i)) rest)
    by by rewrite run_app.
  rewrite Hrun in Hnext. rewrite run_app, Hrun. cbn [run foldl step].
  fold (run (world_of (set_value this v1 i w0)) rest).
  change (world_of (set_value this v1 i w0))
    with (step w0 (CallSetValue this v1 i)).
  destruct (all_forward_levels_ w0 !! i) as [l|] eqn:Hl;
    [|rewrite (set_value_inactive _ _ _ _ Hl) in Hset; discriminate Hset].
  apply returns_contains. split; [|done]. intros He. exfalso.
  change (has_entry (run (step w0 (CallSetValue this v1 i)) rest) this i) in He.
  apply entry_registered_run in He as [l' [Hl' _]]; [| |done|].
  - rewrite get_next_idx_unfold in Hnext. injection Hnext as Hi.
    pose proof (fresh_inactive (run (world_of (set_value this v1 i w0)) rest))
      as Hf.
    rewrite Hi in Hf. cbn [step] in Hl'. by rewrite Hf in Hl'.
  - apply level_idx_ok_step, level_idx_ok_run, level_idx_ok_initial.
  - intros _. cbn [step]. rewrite (registered_set _ _ _ _ _ _ _ Hl). by right.
Qed.

Lemma recycled_index_clean_witness :
  returns (contains 7 0
    (run initial_world [CallNextIdx; CallSetValue 7 (TensorImpl 1) 0]))
    = Some true ∧
  returns (get_next_idx
    (run initial_world
       ([CallNextIdx] ++ CallSetValue 7 (TensorImpl 1) 0
          :: [CallNextIdx] ++ CallReleaseIdx 0 :: [CallReleaseIdx 1])))
    = Some 0 ∧
  returns (contains 7 0
    (run initial_world
       (([CallNextIdx] ++ CallSetValue 7 (TensorImpl 1) 0
           :: [CallNextIdx] ++ CallReleaseIdx 0 :: [CallReleaseIdx 1])
        ++ [CallNextIdx]))) = Some false.
Proof.
  assert (Hset : returns (set_value 7 (TensorImpl 1) 0
                            (run initial_world [CallNextIdx])) = Some tt)
    by (vm_compute; reflexivity).
  assert (Hnc : never_cleared 7
            ([CallNextIdx] ++ CallReleaseIdx 0 :: [CallReleaseIdx 1]))
    by (repeat constructor; discriminate).
  assert (Hnext : returns (get_next_idx
            (run initial_world
               ([CallNextIdx] ++ CallSetValue 7 (TensorImpl 1) 0
                  :: [CallNextIdx] ++ CallReleaseIdx 0 :: [CallReleaseIdx 1])))
            = Some 0) by (vm_compute; reflexivity).
  split; [vm_compute; reflexivity|].
  split; [exact Hnext|].
  exact (recycled_index_clean [CallNextIdx] [CallNextIdx] [CallReleaseIdx 1]
           7 (TensorImpl 1) 0 Hset Hnc Hnext).
Defined.

(** ** Teardown *)

Lemma clear_returns this w : returns (clear this w) = Some tt.
Proof. by rewrite clear_unfold. Qed.

(** Holder 7 has tensor 1 for the live level 0 and is cleared: its entry
    is still there. The same holds on [stale_entry_world], where no level is
    live any more and the holder still has the entry. *)
Lemma clear_leaves_no_entries_counterexample :
  ¬ clear_leaves_no_entries
      (run initial_world [CallNextIdx; CallSetValue 7 (TensorImpl 1) 0]) 7 ∧
  (∀ i, ¬ is_active stale_entry_world i) ∧
  ¬ clear_leaves_no_entries stale_entry_world 7.
Proof.
  split; [|split].
  - intros [_ H]. apply (f_equal (λ m : gmap N Tensor, m !! 0)) in H.
    vm_compute in H. discriminate H.
  - intros i [l Hl]. vm_compute in Hl. discriminate Hl.
  - intros [_ H]. apply (f_equal (λ m : gmap N Tensor, m !! 0)) in H.
    vm_compute in H. discriminate H.
Qed.

(** C3 (as amended): in every world [clear] returns, also when levels the
    holder has entries for are no longer live; it leaves the entries of the
    holder as they are, and afterwards no live level for which the holder
    has an entry lists it, the other memberships being as before. So the
    holder has no entries after [clear] exactly when it had none before;
    that is the case, for a holder not cleared before in a world reached
    by calls, when no live level lists it any more (every level it was
    registered with has been released). *)
Theorem clear_keeps_entries w this :
  returns (clear this w) = Some tt ∧
  content_of (step w (CallClear this)) this = content_of w this ∧
  (∀ i, has_entry w this i → ¬ registered (step w (CallClear this)) this i) ∧
  (∀ i, ¬ has_entry w this i →
     (registered (step w (CallClear this)) this i ↔ registered w this i)) ∧
  (∀ calls, w = run initial_world calls →
     never_cleared this calls →
     (∀ i, ¬ registered w this i) →
     content_of (step w (CallClear this)) this = ∅).
Proof.
  cbn [step].
  split; [apply clear_returns|].
  split; [apply content_of_clear|].
  split; [intros i He [_ Hne]%registered_clear; by apply Hne|].
  split; [intros i He; rewrite registered_clear; tauto|].
  intros calls -> Hnc Hgone. rewrite content_of_clear.
  apply map_empty. intros i. apply eq_None_not_Some. intros He.
  apply (Hgone i). by apply entry_registered_reachable.
Qed.

Lemma clear_keeps_entries_witness :
  has_entry
    (run initial_world
       [CallNextIdx; CallNextIdx; CallSetValue 7 (TensorImpl 1) 0;
        CallSetValue 7 (TensorImpl 2) 1]) 7 1 ∧
  content_of
    (step (run initial_world
             [CallNextIdx; CallNextIdx; CallSetValue 7 (TensorImpl 1) 0;
              CallSetValue 7 (TensorImpl 2) 1; CallReleaseIdx 1;
              CallReleaseIdx 0]) (CallClear 7)) 7 = ∅ ∧
  ¬ registered
    (step (run initial_world
             [CallNextIdx; CallNextIdx; CallSetValue 7 (TensorImpl 1) 0;
              CallSetValue 7 (TensorImpl 2) 1]) (CallClear 7)) 7 1.
Proof.
  assert (He : has_entry
            (run initial_world
               [CallNextIdx; CallNextIdx; CallSetValue 7 (TensorImpl 1) 0;
                CallSetValue 7 (TensorImpl 2) 1]) 7 1)
    by (vm_compute; by eexists).
  split; [exact He|]. split.
  - apply (proj2 (proj2 (proj2 (proj2 (clear_keeps_entries _ 7))))
             [CallNextIdx; CallNextIdx; CallSetValue 7 (TensorImpl 1) 0;
              CallSetValue 7 (TensorImpl 2) 1; CallReleaseIdx 1; CallReleaseIdx 0]).
    + reflexivity.
    + repeat constructor; discriminate.
    + intros i [l [Hl _]]. vm_compute in Hl. discriminate Hl.
  - exact (proj1 (proj2 (proj2 (clear_keeps_entries _ 7))) 1 He).
Defined.

(** Holder 7 with entries for two live levels: both drop it and both
    entries stay. *)
Example clear_two_levels_run :
  returns (clear 7
    (run initial_world
       [CallNextIdx; CallNextIdx; CallSetValue 7 (TensorImpl 1) 0;
        CallSetValue 7 (TensorImpl 2) 1; CallSetValue 8 (TensorImpl 3) 1]))
    = Some tt ∧
  map_to_list (content_of
    (run initial_world
       [CallNextIdx; CallNextIdx; CallSetValue 7 (TensorImpl 1) 0;
        CallSetValue 7 (TensorImpl 2) 1; CallSetValue 8 (TensorImpl 3) 1;
        CallClear 7]) 7) = [(1, TensorImpl 2); (0, TensorImpl 1)] ∧
  (elements ∘ grads_) <$> all_forward_levels_
    (run initial_world
       [CallNextIdx; CallNextIdx; CallSetValue 7 (TensorImpl 1) 0;
        CallSetValue 7 (TensorImpl 2) 1; CallSetValue 8 (TensorImpl 3) 1;
        CallClear 7]) !! 0 = Some [] ∧
  (elements ∘ grads_) <$> all_forward_levels_
    (run initial_world
       [CallNextIdx; CallNextIdx; CallSetValue 7 (TensorImpl 1) 0;
        CallSetValue 7 (TensorImpl 2) 1; CallSetValue 8 (TensorImpl 3) 1;
        CallClear 7]) !! 1 = Some [8].
Proof. vm_compute. done. Qed.

(** After both levels are released the holder has no entries and [clear]
    has nothing to do. *)
Example clear_after_releases_run :
  content_of
    (run initial_world
       [CallNextIdx; CallNextIdx; CallSetValue 7 (TensorImpl 1) 0;
        CallSetValue 7 (TensorImpl 2) 1; CallReleaseIdx 1; CallReleaseIdx 0;
        CallClear 7]) 7 = ∅.
Proof. vm_compute. reflexivity. Qed.

(** ** Entries and membership *)

(** Holder 7 is given a tensor for the live level 0 and is then cleared:
    level 0 is live and no longer lists it, and its entry for 0 is there. *)
Lemma bidirectional_counterexample :
  ¬ bidirectional
      (run initial_world
         [CallNextIdx; CallSetValue 7 (TensorImpl 1) 0; CallClear 7]) 7 0.
Proof.
  intros H.
  assert (Hl : all_forward_levels_
                 (run initial_world
                    [CallNextIdx; CallSetValue 7 (TensorImpl 1) 0; CallClear 7])
                 !! 0 = Some (mkLevel ∅ 0)) by (vm_compute; reflexivity).
  apply H in Hl. simpl in Hl.
  assert (He : has_entry
                 (run initial_world
                    [CallNextIdx; CallSetValue 7 (TensorImpl 1) 0; CallClear 7])
                 7 0) by (vm_compute; by eexists).
  apply Hl in He. by apply not_elem_of_empty in He.
Qed.

(** C2 (as amended): in the world reached by any sequence of [get_next_idx],
    [release_idx], [set_value], [reset] and [clear] calls, a holder that was
    not cleared has an entry for [i] only if a level is live at [i] and
    lists it; and, when every [reset] of the sequence has
    [update_level = true], a holder listed by the live level at [i] has an
    entry for [i]. So for such holders and sequences the two are
    equivalent. *)
Theorem entries_match_membership calls this i :
  (never_cleared this calls →
   has_entry (run initial_world calls) this i →
   registered (run initial_world calls) this i) ∧
  (default_resets calls →
   registered (run initial_world calls) this i →
   has_entry (run initial_world calls) this i) ∧
  (never_cleared this calls → default_resets calls →
   bidirectional (run initial_world calls) this i).
Proof.
  split; [apply entry_registered_reachable|].
  split; [apply registered_entry_reachable|].
  intros Hnc Hdr l Hl. split.
  - intros He. apply (entry_registered_reachable _ _ _ Hnc) in He
      as [l' [Hl' Hin]]. rewrite Hl in Hl'. by injection Hl' as <-.
  - intros Hin. apply (registered_entry_reachable _ _ _ Hdr). by exists l.
Qed.

Lemma entries_match_membership_witness :
  has_entry
    (run initial_world
       [CallNextIdx; CallNextIdx; CallSetValue 7 (TensorImpl 1) 0;
        CallSetValue 8 (TensorImpl 2) 1; CallReset 8 1 true; CallReleaseIdx 1;
        CallSetValue 8 (TensorImpl 3) 0; CallClear 8]) 7 0 ∧
  registered
    (run initial_world
       [CallNextIdx; CallNextIdx; CallSetValue 7 (TensorImpl 1) 0;
        CallSetValue 8 (TensorImpl 2) 1; CallReset 8 1 true; CallReleaseIdx 1;
        CallSetValue 8 (TensorImpl 3) 0; CallClear 8]) 7 0.
Proof.
  assert (He : has_entry
    (run initial_world
       [CallNextIdx; CallNextIdx; CallSetValue 7 (TensorImpl 1) 0;
        CallSetValue 8 (TensorImpl 2) 1; CallReset 8 1 true; CallReleaseIdx 1;
        CallSetValue 8 (TensorImpl 3) 0; CallClear 8]) 7 0)
    by (vm_compute; by eexists).
  split; [exact He|].
  apply (proj1 (entries_match_membership
    [CallNextIdx; CallNextIdx; CallSetValue 7 (TensorImpl 1) 0;
     CallSetValue 8 (TensorImpl 2) 1; CallReset 8 1 true; CallReleaseIdx 1;
     CallSetValue 8 (TensorImpl 3) 0; CallClear 8] 7 0)).
  - repeat constructor; discriminate.
  - exact He.
Defined.

(** ** Live indices *)

Lemma track_world st calls :
  (foldl track st calls).1 = run st.1 calls.
Proof.
  revert st. induction calls as [|c calls IH]; intros st; [done|].
  simpl. by rewrite IH.
Qed.

Lemma remove_first_elem i l j :
  NoDup l → j ∈ remove_first i l ↔ j ∈ l ∧ j ≠ i.
Proof.
  induction l as [|k l IH]; intros Hnd; simpl.
  - split; [by intros ?%elem_of_nil | by intros [?%elem_of_nil _]].
  - apply NoDup_cons in Hnd as [Hk Hnd]. case_decide as Hd.
    + subst k. rewrite elem_of_cons. split.
      * intros Hj. split; [by right|]. by intros ->.
      * by intros [[?|?] ?].
    + rewrite !elem_of_cons, (IH Hnd). split.
      * intros [->|[? ?]]; [split; [by left | by intros ->] | by split; [right|]].
      * intros [[->|?] ?]; [by left | by right].
Qed.

Lemma remove_first_NoDup i l : NoDup l → NoDup (remove_first i l).
Proof.
  induction l as [|k l IH]; intros Hnd; simpl; [done|].
  pose proof Hnd as Hnd'. apply NoDup_cons in Hnd as [Hk Hnd].
  case_decide; [done|]. apply NoDup_cons. split; [|by apply IH].
  rewrite (remove_first_elem _ _ _ Hnd). by intros [? _].
Qed.

Lemma live_ok_track st c : live_ok st → live_ok (track st c).
Proof.
  destruct st as [w live]. intros [Hnd Hlive]. simpl in Hnd, Hlive.
  destruct c as [|idx|this v level|this level ul|this]; unfold track;
    cbn [fst snd step].
  - change (returns (get_next_idx w))
      with (Some (fresh (dom (all_forward_levels_ w)))).
    cbv iota. split; cbn [fst snd].
    + apply NoDup_cons. split; [|done]. rewrite Hlive.
      unfold is_active. rewrite fresh_inactive. by intros [? ?].
    + intros i. rewrite is_active_next, elem_of_cons, Hlive. tauto.
  - destruct (all_forward_levels_ w !! idx) as [l|] eqn:Hl.
    + rewrite (returns_release idx w) by by eexists.
      split; simpl; [by apply remove_first_NoDup|].
      intros i. rewrite (remove_first_elem _ _ _ Hnd), Hlive.
      by rewrite (is_active_release _ _ _ _ Hl).
    + rewrite (release_idx_inactive _ _ Hl). by split.
  - split; simpl; [done|]. intros i.
    rewrite Hlive. symmetry. apply (is_active_set this v level w i).
  - split; simpl; [done|]. intros i.
    rewrite Hlive. symmetry. apply (is_active_reset this level ul w i).
  - split; simpl; [done|]. intros i.
    rewrite Hlive. symmetry. apply is_active_clear.
Qed.

Lemma live_ok_run st calls : live_ok st → live_ok (foldl track st calls).
Proof.
  revert st. induction calls as [|c calls IH]; intros st Hok; [done|].
  simpl. apply IH. by apply live_ok_track.
Qed.

(** C6: after any sequence of calls (so after each of its prefixes, and in
    particular for sequences of [get_next_idx] and [release_idx] only), the
    indices returned by [get_next_idx] and not released since hold no index
    twice, and the index that [get_next_idx] returns next is none of
    them. *)
Theorem live_indices_unique calls :
  NoDup (live_indices calls) ∧
  ∃ i, returns (get_next_idx (run initial_world calls)) = Some i ∧
       i ∉ live_indices calls.
Proof.
  assert (Hok : live_ok (foldl track (initial_world, []) calls)).
  { apply live_ok_run. split; simpl; [apply NoDup_nil_2|].
    intros i. split; [by intros ?%elem_of_nil|].
    unfold is_active, initial_world; simpl. rewrite lookup_empty. by intros [? ?]. }
  destruct Hok as [Hnd Hlive]. split; [done|].
  eexists. split; [by rewrite get_next_idx_unfold|].
  unfold live_indices. rewrite Hlive, track_world. simpl.
  unfold is_active. rewrite fresh_inactive. by intros [? ?].
Qed.

Example live_indices_run :
  live_indices
    [CallNextIdx; CallNextIdx; CallNextIdx; CallReleaseIdx 1; CallReleaseIdx 1;
     CallNextIdx] = [3; 2; 0].
Proof. vm_compute. reflexivity. Qed.

(** * Further properties of the holder and the level *)

(** ** Worlds by their two tables *)

Lemma world_eq w1 w2 :
  all_forward_levels_ w1 = all_forward_levels_ w2 →
  grad_heap w1 = grad_heap w2 → w1 = w2.
Proof. destruct w1, w2; simpl. by intros -> ->. Qed.

Lemma level_eta l : mkLevel (grads_ l) (idx_ l) = l.
Proof. by destruct l. Qed.

Lemma grad_heap_with_content this f w h :
  grad_heap (with_content this f w) !! h =
  if decide (h = this) then Some (mkGrad (f (content_of w this)))
  else grad_heap w !! h.
Proof.
  unfold with_content; simpl. rewrite lookup_insert.
  repeat case_decide; subst; done.
Qed.

Lemma has_entry_in_heap w this level :
  has_entry w this level →
  ∃ g, grad_heap w !! this = Some g ∧ content_ g = content_of w this.
Proof.
  unfold has_entry, content_of, grad_at.
  destruct (grad_heap w !! this) as [g|]; simpl; [by eauto|].
  rewrite lookup_empty. by intros [? ?].
Qed.

Lemma content_of_release idx w l h :
  all_forward_levels_ w !! idx = Some l →
  content_of (world_of (release_idx idx w)) h =
  if decide (h ∈ grads_ l) then delete (idx_ l) (content_of w h)
  else content_of w h.
Proof.
  intros Hl. rewrite (release_idx_active _ _ _ Hl). unfold world_of; simpl.
  rewrite destroy_loop_content.
  change (content_of (mkWorld _ (grad_heap w)) h) with (content_of w h).
  destruct (decide (h ∈ grads_ l)) as [Hin|Hin].
  - rewrite decide_True; [done|]. by apply elem_of_elements.
  - rewrite decide_False; [done|]. by rewrite elem_of_elements.
Qed.

(** ** [set_value] *)

(** On a live level [set_value] returns; afterwards the holder has an entry
    for the level and the level lists it, and nothing else has moved: the
    other holders keep their content, the holder keeps its entries for the
    other levels, no other membership changes and the same levels are
    live. *)
Theorem set_value_post_frame w this v level :
  is_active w level →
  returns (set_value this v level w) = Some tt ∧
  has_entry (step w (CallSetValue this v level)) this level ∧
  registered (step w (CallSetValue this v level)) this level ∧
  (∀ h, h ≠ this →
     content_of (step w (CallSetValue this v level)) h = content_of w h) ∧
  (∀ i, i ≠ level →
     content_of (step w (CallSetValue this v level)) this !! i
     = content_of w this !! i) ∧
  (∀ h i, ¬ (h = this ∧ i = level) →
     (registered (step w (CallSetValue this v level)) h i ↔ registered w h i)) ∧
  (∀ i, is_active (step w (CallSetValue this v level)) i ↔ is_active w i).
Proof.
  intros Ha. pose proof Ha as [l Hl].
  split; [by apply returns_set|].
  split; [cbn [step]; rewrite (has_entry_set _ _ _ _ _ _ _ Hl); by right|].
  split; [cbn [step]; rewrite (registered_set _ _ _ _ _ _ _ Hl); by right|].
  split; [intros h Hh; by rewrite (content_of_set _ _ _ _ _ Ha), decide_False|].
  split.
  - intros i Hi. rewrite (content_of_set _ _ _ _ _ Ha), decide_True by done.
    unfold unordered_map_insert.
    destruct (content_of w this !! level); [done|]. by rewrite lookup_insert_ne.
  - split; [|intros i; apply is_active_set].
    intros h i Hne. cbn [step]. rewrite (registered_set _ _ _ _ _ _ _ Hl). tauto.
Qed.

Lemma set_value_post_frame_witness :
  is_active (run initial_world [CallNextIdx; CallNextIdx]) 1 ∧
  has_entry
    (step (run initial_world [CallNextIdx; CallNextIdx])
       (CallSetValue 7 (TensorImpl 1) 1)) 7 1.
Proof.
  assert (Ha : is_active (run initial_world [CallNextIdx; CallNextIdx]) 1)
    by (vm_compute; by eexists).
  split; [exact Ha|].
  exact (proj1 (proj2
    (set_value_post_frame (run initial_world [CallNextIdx; CallNextIdx]) 7
       (TensorImpl 1) 1 Ha))).
Defined.

(** A holder that has an entry for a level and is listed by it: [set_value]
    for that level returns and leaves the whole world as it was, whatever
    tensor it is given. *)
Theorem set_value_existing_noop w this v level :
  has_entry w this level →
  registered w this level →
  set_value this v level w = (w, inr tt).
Proof.
  intros He [l [Hl Hin]]. rewrite (set_value_active _ _ _ _ _ Hl).
  f_equal. apply world_eq.
  - simpl. apply map_eq. intros i. rewrite lookup_alter. case_decide as Hd; [|done].
    subst i. rewrite Hl. destruct l as [g ix]. simpl in *. do 2 f_equal.
    apply set_eq. intros x. rewrite elem_of_union, elem_of_singleton.
    split; [intros [->|?]; done | by right].
  - simpl. change (content_ (grad_at (with_grads ?a ?b ?c) this))
      with (content_of c this).
    destruct (has_entry_in_heap _ _ _ He) as [g [Hg Hc]].
    apply insert_id. rewrite Hg. f_equal. destruct g as [c]. simpl in *.
    subst c. unfold unordered_map_insert.
    destruct He as [v0 Hv0]. by rewrite Hv0.
Qed.

Lemma set_value_existing_noop_witness :
  set_value 7 (TensorImpl 2) 0
    (run initial_world [CallNextIdx; CallSetValue 7 (TensorImpl 1) 0])
  = (run initial_world [CallNextIdx; CallSetValue 7 (TensorImpl 1) 0], inr tt).
Proof.
  apply set_value_existing_noop.
  - vm_compute. by eexists.
  - eexists. split; [vm_compute; reflexivity|]. vm_compute. reflexivity.
Defined.

(** ** [reset] *)

Lemma levels_reset this level w i :
  all_forward_levels_ (step w (CallReset this level true)) !! i =
  if decide (i = level) then drop_grad this <$> all_forward_levels_ w !! i
  else all_forward_levels_ w !! i.
Proof.
  cbn [step]. destruct (all_forward_levels_ w !! level) as [l|] eqn:Hl.
  - rewrite (reset_active _ _ _ _ Hl). unfold world_of; simpl.
    apply (levels_with_grads level (λ g, g ∖ {[this]}) w i).
  - rewrite (reset_inactive _ _ _ Hl). unfold world_of; simpl.
    case_decide; [subst i; by rewrite Hl | done].
Qed.

(** On a live level [reset] with [update_level = true] returns; afterwards
    the holder has no entry for the level and the level does not list it,
    and nothing else has moved. *)
Theorem reset_post_frame w this level :
  is_active w level →
  returns (reset this level true w) = Some tt ∧
  ¬ has_entry (step w (CallReset this level true)) this level ∧
  ¬ registered (step w (CallReset this level true)) this level ∧
  (∀ h, h ≠ this →
     content_of (step w (CallReset this level true)) h = content_of w h) ∧
  (∀ i, i ≠ level →
     content_of (step w (CallReset this level true)) this !! i
     = content_of w this !! i) ∧
  (∀ h i, ¬ (h = this ∧ i = level) →
     (registered (step w (CallReset this level true)) h i ↔ registered w h i)) ∧
  (∀ i, is_active (step w (CallReset this level true)) i ↔ is_active w i).
Proof.
  intros Ha. pose proof Ha as [l Hl].
  split; [by apply returns_reset|].
  split; [cbn [step]; rewrite (has_entry_reset _ _ _ _ _ _ Hl); tauto|].
  split; [cbn [step]; rewrite (registered_reset _ _ _ _ _ _ Hl); tauto|].
  split; [intros h Hh; by rewrite (content_of_reset _ _ _ _ Ha), decide_False|].
  split.
  - intros i Hi. rewrite (content_of_reset _ _ _ _ Ha), decide_True by done.
    by apply lookup_delete_ne.
  - split; [|intros i; apply is_active_reset].
    intros h i Hne. cbn [step]. rewrite (registered_reset _ _ _ _ _ _ Hl). tauto.
Qed.

Lemma reset_post_frame_witness :
  has_entry
    (run initial_world [CallNextIdx; CallSetValue 7 (TensorImpl 1) 0]) 7 0 ∧
  ¬ has_entry
    (step (run initial_world [CallNextIdx; CallSetValue 7 (TensorImpl 1) 0])
       (CallReset 7 0 true)) 7 0.
Proof.
  split; [vm_compute; by eexists|].
  assert (Ha : is_active
            (run initial_world [CallNextIdx; CallSetValue 7 (TensorImpl 1) 0]) 0)
    by (vm_compute; by eexists).
  exact (proj1 (proj2
    (reset_post_frame
       (run initial_world [CallNextIdx; CallSetValue 7 (TensorImpl 1) 0])
       7 0 Ha))).
Defined.

(** A holder with no entry for a live level, and not listed by it:
    [set_value] followed by [reset] gives back the table of levels and the
    content of every holder. *)
Theorem set_value_reset_round_trip w this v level :
  is_active w level →
  ¬ has_entry w this level →
  ¬ registered w this level →
  all_forward_levels_
    (run w [CallSetValue this v level; CallReset this level true])
    = all_forward_levels_ w ∧
  (∀ h, content_of
          (run w [CallSetValue this v level; CallReset this level true]) h
        = content_of w h).
Proof.
  intros Ha He Hr. pose proof Ha as [l Hl].
  assert (Ha1 : is_active (step w (CallSetValue this v level)) level)
    by by apply is_active_set.
  cbn [run foldl]. split.
  - apply map_eq. intros i. rewrite levels_reset, levels_set.
    case_decide as Hd; [|done]. subst i. rewrite Hl. simpl. f_equal.
    destruct l as [g ix]. unfold drop_grad, add_grad; simpl. f_equal.
    apply set_eq. intros x.
    rewrite elem_of_difference, elem_of_union, elem_of_singleton. split.
    + intros [[->|?] ?]; done.
    + intros Hx. split; [by right|]. intros ->. apply Hr.
      exists (mkLevel g ix). by split.
  - intros h. rewrite (content_of_reset _ _ _ _ Ha1).
    rewrite !(content_of_set _ _ _ _ _ Ha).
    destruct (decide (h = this)) as [->|Hd]; [|done].
    rewrite decide_True by done.
    unfold unordered_map_insert, unordered_map_erase.
    destruct (content_of w this !! level) as [v0|] eqn:Hv0.
    + exfalso. apply He. by exists v0.
    + by apply delete_insert_id.
Qed.

Lemma set_value_reset_round_trip_witness :
  all_forward_levels_
    (run (run initial_world [CallNextIdx; CallSetValue 8 (TensorImpl 3) 0])
       [CallSetValue 7 (TensorImpl 1) 0; CallReset 7 0 true])
  = all_forward_levels_
      (run initial_world [CallNextIdx; CallSetValue 8 (TensorImpl 3) 0]).
Proof.
  apply (set_value_reset_round_trip
           (run initial_world [CallNextIdx; CallSetValue 8 (TensorImpl 3) 0])
           7 (TensorImpl 1) 0).
  - vm_compute. by eexists.
  - vm_compute. intros [x Hx]. discriminate Hx.
  - intros [l [Hl Hin]]. vm_compute in Hl. injection Hl as <-.
    vm_compute in Hin. discriminate Hin.
Defined.

(** On a live level, [reset] followed by [set_value] stores the new tensor,
    whatever the holder had for the level: this is how an entry is
    replaced. *)
Theorem reset_set_value_replaces w this v level :
  is_active w level →
  returns (set_value this v level (step w (CallReset this level true)))
    = Some tt ∧
  content_of (run w [CallReset this level true; CallSetValue this v level])
    this !! level = Some v ∧
  value_read (run w [CallReset this level true; CallSetValue this v level])
    this level = Some v ∧
  registered (run w [CallReset this level true; CallSetValue this v level])
    this level.
Proof.
  intros Ha.
  assert (Ha1 : is_active (step w (CallReset this level true)) level)
    by by apply is_active_reset.
  assert (Hc : content_of
                 (run w [CallReset this level true; CallSetValue this v level])
                 this !! level = Some v).
  { cbn [run foldl]. rewrite (content_of_set _ _ _ _ _ Ha1), decide_True by done.
    rewrite (content_of_reset _ _ _ _ Ha), decide_True by done.
    unfold unordered_map_insert, unordered_map_erase.
    rewrite lookup_delete_eq. apply lookup_insert_eq. }
  split; [by apply returns_set|].
  split; [done|].
  split; [by rewrite value_read_content, Hc|].
  cbn [run foldl]. destruct Ha1 as [l1 Hl1]. cbn [step] in *.
  rewrite (registered_set _ _ _ _ _ _ _ Hl1). by right.
Qed.

Lemma reset_set_value_replaces_witness :
  value_read
    (run initial_world [CallNextIdx; CallSetValue 7 (TensorImpl 1) 0])
    7 0 = Some (TensorImpl 1) ∧
  value_read
    (run (run initial_world [CallNextIdx; CallSetValue 7 (TensorImpl 1) 0])
       [CallReset 7 0 true; CallSetValue 7 (TensorImpl 2) 0])
    7 0 = Some (TensorImpl 2).
Proof.
  split; [vm_compute; reflexivity|].
  assert (Ha : is_active
            (run initial_world [CallNextIdx; CallSetValue 7 (TensorImpl 1) 0]) 0)
    by (vm_compute; by eexists).
  exact (proj1 (proj2 (proj2
    (reset_set_value_replaces
       (run initial_world [CallNextIdx; CallSetValue 7 (TensorImpl 1) 0])
       7 (TensorImpl 2) 0 Ha)))).
Defined.

(** A second [reset] with the same arguments changes nothing: the world
    after two is the world after one, for either value of [update_level]
    and whether or not the level is live. *)
Theorem reset_idempotent w this level ul :
  run w [CallReset this level ul; CallReset this level ul]
  = run w [CallReset this level ul].
Proof.
  cbn [run foldl]. destruct ul.
  - destruct (all_forward_levels_ w !! level) as [l|] eqn:Hl.
    + assert (Ha : is_active w level) by by exists l.
      assert (Ha1 : is_active (step w (CallReset this level true)) level)
        by by apply is_active_reset.
      destruct Ha1 as [l1 Hl1]. set (w1 := step w (CallReset this level true)) in *.
      cbn [step]. rewrite (reset_active _ _ _ _ Hl1). unfold world_of at 1; simpl.
      apply world_eq.
      * simpl. apply map_eq. intros i. rewrite lookup_alter.
        case_decide as Hd; [|done]. subst i. unfold w1.
        rewrite levels_reset, decide_True, Hl by done. simpl. f_equal.
        unfold drop_grad; simpl. f_equal.
        apply set_eq. intros x. rewrite !elem_of_difference. tauto.
      * simpl. change (content_ (grad_at (with_grads ?a ?b ?c) this))
          with (content_of c this).
        unfold w1 at 1. rewrite (content_of_reset _ _ _ _ Ha), decide_True by done.
        unfold w1. cbn [step]. rewrite (reset_active _ _ _ _ Hl).
        unfold world_of; simpl. rewrite insert_insert_eq.
        unfold unordered_map_erase. by rewrite delete_delete_eq.
    + cbn [step]. by rewrite !(reset_inactive _ _ _ Hl).
  - cbn [step]. rewrite !reset_local. unfold world_of; simpl.
    apply world_eq; [done|]. simpl.
    change (content_ (grad_at (with_content ?a ?b ?c) this))
      with (content_of (with_content a b c) this).
    rewrite content_of_with_content, decide_True by done.
    rewrite insert_insert_eq. unfold unordered_map_erase.
    by rewrite delete_delete_eq.
Qed.

(** ** [clear] *)

Lemma grad_heap_clear this w :
  grad_heap (world_of (clear this w)) = grad_heap w.
Proof. rewrite clear_unfold. unfold world_of; simpl. apply clear_loop_heap. Qed.

(** A second [clear] of the same holder changes nothing: the world after
    two is the world after one. *)
Theorem clear_idempotent w this :
  run w [CallClear this; CallClear this] = run w [CallClear this].
Proof.
  cbn [run foldl step]. apply world_eq.
  - apply map_eq. intros i. rewrite !levels_clear.
    assert (Hiff : has_entry (world_of (clear this w)) this i ↔ has_entry w this i)
      by (unfold has_entry; by rewrite content_of_clear).
    destruct (decide (has_entry (world_of (clear this w)) this i)) as [He1|He1];
      destruct (decide (has_entry w this i)) as [He|He]; try tauto.
    destruct (all_forward_levels_ w !! i) as [l|]; [|done]. simpl. f_equal.
    unfold drop_grad; simpl. f_equal.
    apply set_eq. intros x. rewrite !elem_of_difference. tauto.
  - by rewrite !grad_heap_clear.
Qed.

(** A holder that has an entry wherever a live level lists it: after
    [clear] no live level lists it. The content of every holder, its own
    included, the memberships of the other holders and the set of live
    levels are as before. *)
Theorem clear_unregisters w this :
  (∀ i, registered w this i → has_entry w this i) →
  returns (clear this w) = Some tt ∧
  (∀ i, ¬ registered (step w (CallClear this)) this i) ∧
  (∀ h, content_of (step w (CallClear this)) h = content_of w h) ∧
  (∀ h i, h ≠ this →
     (registered (step w (CallClear this)) h i ↔ registered w h i)) ∧
  (∀ i, is_active (step w (CallClear this)) i ↔ is_active w i).
Proof.
  intros Hinv. cbn [step].
  split; [apply clear_returns|].
  split; [intros i [Hr Hne]%registered_clear; apply Hne; split; [done|by apply Hinv]|].
  split; [intros h; apply content_of_clear|].
  split; [|intros i; apply is_active_clear].
  intros h i Hh. rewrite registered_clear. tauto.
Qed.

Lemma clear_unregisters_witness :
  registered
    (run initial_world
       [CallNextIdx; CallNextIdx; CallSetValue 7 (TensorImpl 1) 0;
        CallSetValue 7 (TensorImpl 2) 1]) 7 1 ∧
  (∀ i, ¬ registered
     (step (run initial_world
              [CallNextIdx; CallNextIdx; CallSetValue 7 (TensorImpl 1) 0;
               CallSetValue 7 (TensorImpl 2) 1]) (CallClear 7)) 7 i).
Proof.
  split.
  - eexists. split; [vm_compute; reflexivity|]. vm_compute. reflexivity.
  - apply (clear_unregisters
             (run initial_world
                [CallNextIdx; CallNextIdx; CallSetValue 7 (TensorImpl 1) 0;
                 CallSetValue 7 (TensorImpl 2) 1]) 7).
    intros i. apply registered_entry_reachable.
    repeat constructor; discriminate.
Defined.

(** Once no live level lists a holder, calls on the level table, calls on
    other holders and [clear] leave its content as it is: a level released
    later does not reset it. *)
Theorem unregistered_holder_untouched w this calls :
  (∀ i, ¬ registered w this i) →
  leaves_alone this calls →
  content_of (run w calls) this = content_of w this ∧
  (∀ i, ¬ registered (run w calls) this i).
Proof.
  revert w. induction calls as [|c calls IH]; intros w Hnr Hla; [done|].
  apply Forall_cons in Hla as [Hc Hla]. cbn [run foldl].
  assert (Hstep : content_of (step w c) this = content_of w this ∧
                  ∀ i, ¬ registered (step w c) this i).
  { destruct c as [|idx|h v level|h level ul|h]; cbn [step].
    - split; [done|]. intros i. rewrite registered_next. apply Hnr.
    - destruct (all_forward_levels_ w !! idx) as [l|] eqn:Hl.
      + split.
        * rewrite (content_of_release _ _ _ _ Hl), decide_False; [done|].
          intros Hin. apply (Hnr idx). by exists l.
        * intros i [Hr _]%(registered_release _ _ _ _ _ Hl). by apply (Hnr i).
      + by rewrite (release_idx_inactive _ _ Hl).
    - destruct (all_forward_levels_ w !! level) as [l|] eqn:Hl.
      + split.
        * change (world_of (set_value h v level w))
            with (step w (CallSetValue h v level)).
          rewrite content_of_set by (by exists l). by rewrite decide_False.
        * intros i. rewrite (registered_set _ _ _ _ _ _ _ Hl).
          intros [Hr|[Heq _]]; [by apply (Hnr i) | by apply Hc].
      + by rewrite (set_value_inactive _ _ _ _ Hl).
    - destruct ul.
      + destruct (all_forward_levels_ w !! level) as [l|] eqn:Hl.
        * split.
          -- change (world_of (reset h level true w))
               with (step w (CallReset h level true)).
             rewrite content_of_reset by (by exists l). by rewrite decide_False.
          -- intros i [Hr _]%(registered_reset _ _ _ _ _ _ Hl). by apply (Hnr i).
        * by rewrite (reset_inactive _ _ _ Hl).
      + rewrite reset_local. unfold world_of; simpl. split.
        * by rewrite content_of_with_content, decide_False.
        * apply Hnr.
    - split; [apply content_of_clear|].
      intros i [Hr _]%registered_clear. by apply (Hnr i). }
  destruct Hstep as [Hcs Hrs].
  destruct (IH (step w c) Hrs Hla) as [Hc' Hr']. split; [|done].
  fold (run (step w c) calls). by rewrite Hc', Hcs.
Qed.

Lemma unregistered_holder_untouched_witness :
  content_of
    (run (run initial_world
            [CallNextIdx; CallSetValue 7 (TensorImpl 1) 0; CallClear 7])
       [CallSetValue 8 (TensorImpl 2) 0; CallReleaseIdx 0; CallNextIdx]) 7 !! 0
  = Some (TensorImpl 1).
Proof.
  assert (Hnr : ∀ i, ¬ registered
            (run initial_world
               [CallNextIdx; CallSetValue 7 (TensorImpl 1) 0; CallClear 7]) 7 i).
  { intros i Hr.
    change (run initial_world
              [CallNextIdx; CallSetValue 7 (TensorImpl 1) 0; CallClear 7])
      with (world_of (clear 7 (run initial_world
              [CallNextIdx; CallSetValue 7 (TensorImpl 1) 0]))) in Hr.
    apply registered_clear in Hr as [Hr Hne]. apply Hne. split; [done|].
    apply registered_entry_reachable; [|exact Hr].
    repeat constructor; discriminate. }
  assert (Hla : leaves_alone 7
            [CallSetValue 8 (TensorImpl 2) 0; CallReleaseIdx 0; CallNextIdx])
    by (repeat constructor; discriminate).
  rewrite (proj1 (unregistered_holder_untouched _ 7 _ Hnr Hla)).
  vm_compute. reflexivity.
Defined.

(** ** Releasing a level *)

(** In a world reached from the empty one, releasing a live level returns;
    the level is no longer live, every holder it listed has lost its entry
    for that index, and no other entry of any holder and no other level has
    changed. *)
Theorem release_resets_members calls idx :
  is_active (run initial_world calls) idx →
  returns (release_idx idx (run initial_world calls)) = Some tt ∧
  ¬ is_active (run initial_world (calls ++ [CallReleaseIdx idx])) idx ∧
  (∀ h, registered (run initial_world calls) h idx →
        ¬ has_entry (run initial_world (calls ++ [CallReleaseIdx idx])) h idx) ∧
  (∀ h i, i ≠ idx →
     content_of (run initial_world (calls ++ [CallReleaseIdx idx])) h !! i
     = content_of (run initial_world calls) h !! i) ∧
  (∀ h, ¬ registered (run initial_world calls) h idx →
     content_of (run initial_world (calls ++ [CallReleaseIdx idx])) h
     = content_of (run initial_world calls) h) ∧
  (∀ h i, registered (run initial_world (calls ++ [CallReleaseIdx idx])) h i ↔
          registered (run initial_world calls) h i ∧ i ≠ idx).
Proof.
  intros Ha. pose proof Ha as [l Hl].
  assert (Hidx : idx_ l = idx)
    by (by apply (level_idx_ok_run _ calls level_idx_ok_initial)).
  rewrite run_app. cbn [run foldl step].
  set (w := run initial_world calls) in *.
  split; [by apply returns_release|].
  split; [rewrite (is_active_release _ _ _ _ Hl); by intros [_ ?]|].
  split.
  { intros h [l' [Hl' Hin]]. rewrite Hl in Hl'. injection Hl' as <-.
    rewrite (has_entry_release _ _ _ _ _ Hl). intros [_ Hne]. by apply Hne. }
  split.
  { intros h i Hi. rewrite (content_of_release _ _ _ _ Hl).
    case_decide; [|done]. rewrite Hidx. by apply lookup_delete_ne. }
  split.
  { intros h Hnr. rewrite (content_of_release _ _ _ _ Hl).
    rewrite decide_False; [done|]. intros Hin. apply Hnr. by exists l. }
  intros h i. apply (registered_release _ _ _ _ _ Hl).
Qed.

Lemma release_resets_members_witness :
  has_entry
    (run initial_world
       [CallNextIdx; CallNextIdx; CallSetValue 7 (TensorImpl 1) 0;
        CallSetValue 7 (TensorImpl 2) 1; CallSetValue 8 (TensorImpl 3) 1]) 8 1 ∧
  ¬ has_entry
    (run initial_world
       ([CallNextIdx; CallNextIdx; CallSetValue 7 (TensorImpl 1) 0;
         CallSetValue 7 (TensorImpl 2) 1; CallSetValue 8 (TensorImpl 3) 1]
        ++ [CallReleaseIdx 1])) 8 1.
Proof.
  split; [vm_compute; by eexists|].
  assert (Ha : is_active
            (run initial_world
               [CallNextIdx; CallNextIdx; CallSetValue 7 (TensorImpl 1) 0;
                CallSetValue 7 (TensorImpl 2) 1; CallSetValue 8 (TensorImpl 3) 1])
            1) by (vm_compute; by eexists).
  apply (proj1 (proj2 (proj2 (release_resets_members _ 1 Ha)))).
  eexists. split; [vm_compute; reflexivity|]. vm_compute. reflexivity.
Defined.

(** ** [empty] *)

(** [empty] is true exactly when [contains] is false for every level. *)
Theorem empty_iff_no_contains w this :
  returns (ForwardGrad_empty this w) = Some true ↔
  ∀ level, returns (contains this level w) = Some false.
Proof.
  unfold ForwardGrad_empty, contains, gets, returns; simpl.
  fold (content_of w this). split.
  - intros [= Hb] level. apply bool_decide_eq_true in Hb. rewrite Hb.
    reflexivity.
  - intros Hall. f_equal. apply bool_decide_eq_true. apply map_empty.
    intros level. specialize (Hall level). injection Hall as Hb.
    apply bool_decide_eq_false in Hb. by apply eq_None_not_Some.
Qed.

(** After any sequence of calls that leaves no level live, a holder that
    was not cleared in it is [empty]. *)
Theorem no_live_level_empty calls this :
  never_cleared this calls →
  (∀ i, ¬ is_active (run initial_world calls) i) →
  returns (ForwardGrad_empty this (run initial_world calls)) = Some true.
Proof.
  intros Hnc Hdead. unfold ForwardGrad_empty, gets, returns; simpl.
  fold (content_of (run initial_world calls) this).
  f_equal. apply bool_decide_eq_true. apply map_empty. intros i.
  apply eq_None_not_Some. intros He.
  apply (entry_registered_reachable _ _ _ Hnc) in He as [l [Hl _]].
  apply (Hdead i). by exists l.
Qed.

Lemma no_live_level_empty_witness :
  returns (ForwardGrad_empty 7
    (run initial_world
       [CallNextIdx; CallNextIdx; CallSetValue 7 (TensorImpl 1) 0;
        CallSetValue 7 (TensorImpl 2) 1])) = Some false ∧
  returns (ForwardGrad_empty 7
    (run initial_world
       [CallNextIdx; CallNextIdx; CallSetValue 7 (TensorImpl 1) 0;
        CallSetValue 7 (TensorImpl 2) 1; CallReleaseIdx 0; CallReleaseIdx 1]))
    = Some true.
Proof.
  split; [vm_compute; reflexivity|].
  apply no_live_level_empty.
  - repeat constructor; discriminate.
  - intros i [l Hl]. vm_compute in Hl. discriminate Hl.
Defined.

(** ** Calls on two holders *)

Lemma content_of_set_other this v level w h :
  h ≠ this → content_of (step w (CallSetValue this v level)) h = content_of w h.
Proof.
  intros Hne. destruct (all_forward_levels_ w !! level) as [l|] eqn:Hl.
  - rewrite content_of_set by (by exists l). by rewrite decide_False.
  - cbn [step]. by rewrite (set_value_inactive _ _ _ _ Hl).
Qed.

Lemma grad_heap_set this v level w h :
  grad_heap (step w (CallSetValue this v level)) !! h =
  if decide (h = this ∧ is_active w level)
  then Some (mkGrad (unordered_map_insert level v (content_of w this)))
  else grad_heap w !! h.
Proof.
  cbn [step]. destruct (decide (is_active w level)) as [[l Hl]|Hna].
  - rewrite (set_value_active _ _ _ _ _ Hl). unfold world_of; simpl.
    rewrite lookup_insert.
    change (content_ (grad_at (with_grads ?a ?b ?c) this))
      with (content_of c this).
    destruct (decide (this = h)) as [->|Hne].
    + rewrite decide_True; [done|]. split; [done | by exists l].
    + rewrite decide_False; [done|]. intros [? _]. by apply Hne.
  - rewrite set_value_inactive by (by apply eq_None_not_Some).
    unfold world_of; simpl.
    rewrite decide_False; [done|]. by intros [_ ?].
Qed.

(** [set_value] calls on two different holders commute: either order
    gives the same world, whichever levels they name and whether or not
    those are live. *)
Theorem set_value_commute w h1 v1 l1 h2 v2 l2 :
  h1 ≠ h2 →
  run w [CallSetValue h1 v1 l1; CallSetValue h2 v2 l2]
  = run w [CallSetValue h2 v2 l2; CallSetValue h1 v1 l1].
Proof.
  intros Hne. cbn [run foldl]. apply world_eq.
  - apply map_eq. intros i. rewrite !levels_set.
    repeat case_decide; try done.
    destruct (all_forward_levels_ w !! i) as [l|]; [|done]. simpl. f_equal.
    unfold add_grad; simpl. f_equal.
    apply set_eq. intros x. rewrite !elem_of_union. tauto.
  - apply map_eq. intros h. rewrite !grad_heap_set.
    rewrite (content_of_set_other h1 v1 l1 w h2) by done.
    rewrite (content_of_set_other h2 v2 l2 w h1) by done.
    pose proof (is_active_set h1 v1 l1 w l2) as A1.
    pose proof (is_active_set h2 v2 l2 w l1) as A2.
    repeat case_decide; try done; exfalso; intuition congruence.
Qed.

Lemma set_value_commute_witness :
  run (run initial_world [CallNextIdx; CallNextIdx])
    [CallSetValue 7 (TensorImpl 1) 0; CallSetValue 8 (TensorImpl 2) 0]
  = run (run initial_world [CallNextIdx; CallNextIdx])
      [CallSetValue 8 (TensorImpl 2) 0; CallSetValue 7 (TensorImpl 1) 0].
Proof.
  apply set_value_commute. discriminate.
Defined.
